(** * YasenBaka: the music playback engine and the voice-channel gate

    A shallow embedding of [music/abstract_music_player.py]
    (class [AbstractMusicPlayer]) and of [check_conditions] from
    [music/music_util.py], with the properties of the playback queue, of
    pagination and of the gate stated over it.

    Python objects are mutable and the methods are coroutines, so the engine
    is a record threaded through a state-and-exception monad.  A raised
    exception keeps the mutations done before it, as in Python.  The play
    loop is cut at its one wait on the completion queue
    ([await self.finished.get()]): [play] runs the loop up to that wait and
    [resume] runs it from there to the next one.  The other awaits
    ([ctx.send], [cur.play], [vc.disconnect]) are taken as atomic calls
    whose occurrence is recorded in the context. *)

From Stdlib Require Import ZArith List String Bool Lia DecimalString.
Import ListNotations.
Local Open Scope string_scope.
Local Open Scope list_scope.

(** ** Data *)

(** A voice channel.  discord.py compares channels by their id. *)
Definition Channel := nat.

(** [Entry.source]: the loop only asks whether it is a [YTDLSource]. *)
Inductive Source := YTDLSource | FileSource.

(** An [Entry] of the queue, as far as the engine looks into it. *)
Record Entry := mkEntry {
  entry_id : nat;
  source : Source;
  detail : string
}.

Definition isinstance_YTDLSource (s : Source) : bool :=
  match s with YTDLSource => true | FileSource => false end.

(** discord.py's [VoiceState] (of [ctx.author.voice]) and [VoiceClient]
    (of [ctx.voice_client]); both carry a [channel] attribute. *)
Module VoiceState.
Record t := mk { channel : option Channel }.
End VoiceState.

Module VoiceClient.
Record t := mk { channel : option Channel }.
End VoiceClient.

(** The calls the engine makes to the outside, in the order made. *)
Inductive Effect :=
| Send (msg : string)                 (* await ctx.send(msg) *)
| TriggerTyping                       (* await ctx.trigger_typing() *)
| EntryPlay (e : Entry) (ch : Channel) (* await cur.play(ctx, self.channel, self.__after) *)
| VcStop                              (* vc.stop() *)
| VcDisconnect                        (* await vc.disconnect() *)
| LogWarn (msg : string).             (* self.logger.warn(msg) *)

(** [ctx]: what the engine and the gate read from the invocation context,
    and the record of the calls made through it.  [author_voice] is
    [ctx.author.voice], which discord.py leaves [None] for a member who is
    connected to no voice channel. *)
Record Context := mkContext {
  author_voice : option VoiceState.t;
  voice_client : option VoiceClient.t;
  effects : list Effect
}.

(** The attributes of [AbstractMusicPlayer] ([logger] is replaced by the
    [LogWarn] effect).  [finished] is an [asyncio.Queue(1)]: at most one
    item, and the item itself may be [None]. *)
Record AbstractMusicPlayer := mkPlayer {
  channel : Channel;
  entry_queue : list Entry;
  current : option Entry;
  finished : option (option Entry);
  playing : bool
}.

(** [__init__]. *)
Definition __init__ (ch : Channel) : AbstractMusicPlayer :=
  {| channel := ch; entry_queue := []; current := None;
     finished := None; playing := false |}.

(** The whole state: the player, the context, and whether the coroutine of
    the play loop is suspended on [self.finished.get()]. *)
Record State := mkState {
  self : AbstractMusicPlayer;
  ctx : Context;
  loop_waiting : bool
}.

(** ** Exceptions and the monad *)

Inductive exn := IndexError | QueueFull | AttributeError.

Inductive result (A : Type) :=
| Ok (a : A)
| Raise (e : exn).
Arguments Ok {A} a.
Arguments Raise {A} e.

Definition M (A : Type) : Type := State -> result A * State.

Definition ret {A} (a : A) : M A := fun st => (Ok a, st).

Definition bind {A B} (c : M A) (k : A -> M B) : M B :=
  fun st =>
    match c st with
    | (Ok a, st') => k a st'
    | (Raise e, st') => (Raise e, st')
    end.

Definition raise {A} (e : exn) : M A := fun st => (Raise e, st).

Declare Scope py_scope.
Delimit Scope py_scope with py.
Notation "x <- c ;; k" := (bind c (fun x => k))
  (at level 61, c at next level, right associativity) : py_scope.
Notation "c ;; k" := (bind c (fun _ => k))
  (at level 61, right associativity) : py_scope.
Local Open Scope py_scope.

Definition get_self : M AbstractMusicPlayer := fun st => (Ok (self st), st).
Definition get_ctx : M Context := fun st => (Ok (ctx st), st).

Definition upd_self (f : AbstractMusicPlayer -> AbstractMusicPlayer) : M unit :=
  fun st => (Ok tt, mkState (f (self st)) (ctx st) (loop_waiting st)).

Definition upd_ctx (f : Context -> Context) : M unit :=
  fun st => (Ok tt, mkState (self st) (f (ctx st)) (loop_waiting st)).

Definition set_loop_waiting (b : bool) : M unit :=
  fun st => (Ok tt, mkState (self st) (ctx st) b).

(** Attribute assignments. *)
Definition with_entry_queue (q : list Entry) (p : AbstractMusicPlayer) :=
  mkPlayer (channel p) q (current p) (finished p) (playing p).
Definition with_current (c : option Entry) (p : AbstractMusicPlayer) :=
  mkPlayer (channel p) (entry_queue p) c (finished p) (playing p).
Definition with_finished (f : option (option Entry)) (p : AbstractMusicPlayer) :=
  mkPlayer (channel p) (entry_queue p) (current p) f (playing p).
Definition with_playing (b : bool) (p : AbstractMusicPlayer) :=
  mkPlayer (channel p) (entry_queue p) (current p) (finished p) b.

Definition with_voice_client (vc : option VoiceClient.t) (c : Context) :=
  mkContext (author_voice c) vc (effects c).
Definition add_effect (e : Effect) (c : Context) :=
  mkContext (author_voice c) (voice_client c) (effects c ++ [e]).

Definition effect (e : Effect) : M unit := upd_ctx (add_effect e).

(** Python truthiness of an object reference that is either [None] or an
    instance of a class without [__bool__] and [__len__]. *)
Definition truthy {A} (o : option A) : bool :=
  match o with Some _ => true | None => false end.

(** ** The player *)

(** [empty]: [self.current is None and not self.entry_queue]. *)
Definition empty (p : AbstractMusicPlayer) : bool :=
  negb (truthy (current p)) &&
  match entry_queue p with [] => true | _ :: _ => false end.

(** [self.finished.put_nowait(item)] on a queue of capacity one. *)
Definition put_nowait (item : option Entry) : M unit :=
  p <- get_self ;;
  match finished p with
  | Some _ => raise QueueFull
  | None => upd_self (with_finished (Some item))
  end.

(** [__after(error)], the callback handed to the voice client. *)
Definition __after (error : option string) : M unit :=
  match error with
  | Some msg => effect (LogWarn msg)
  | None => ret tt
  end ;;
  p <- get_self ;;
  put_nowait (current p) ;;
  upd_self (with_current None).

(** [total_page]: [len(self.entry_queue) // 10 + 1]. *)
Definition total_page (p : AbstractMusicPlayer) : Z :=
  (Z.of_nat (List.length (entry_queue p)) / 10 + 1)%Z.

(** [lst]: [list(self.entry_queue)]. *)
Definition lst (p : AbstractMusicPlayer) : list Entry := entry_queue p.

(** Python's [l[start:stop]] for a list and two integers: a negative bound
    counts from the end, both bounds are clamped to [0, len(l)], and the
    result is empty when the lower bound is not below the upper one. *)
Definition slice_bound (i len : Z) : Z :=
  if (i <? 0)%Z then Z.max (i + len) 0 else Z.min i len.

Definition py_slice {A} (l : list A) (start stop : Z) : list A :=
  let len := Z.of_nat (List.length l) in
  let lo := slice_bound start len in
  let hi := slice_bound stop len in
  firstn (Z.to_nat (hi - lo)) (skipn (Z.to_nat lo) l).

(** [f'{page}'] for an [int]. *)
Definition str (n : Z) : string := NilZero.string_of_int (Z.to_int n).

(** Modelled from the spec: [playlist_embed] is imported from
    [music.music_util] but is not in the sources.  The spec says the page
    is rendered from the current entry plus the section, and carries
    [page] and [totalPages]; the embed is kept as these four arguments. *)
Record Embed := playlist_embed {
  embed_page : Z;
  embed_total_page : Z;
  embed_current : option Entry;
  embed_section : list Entry
}.

(** [playlist(ctx, page)]. *)
Definition playlist (page : Z) : M (option Embed) :=
  p <- get_self ;;
  if empty p then
    effect (Send "Playlist is empty") ;;
    ret None
  else
    let start := (10 * (page - 1))%Z in
    let section := py_slice (lst p) start (start + 10)%Z in
    match section, current p with
    | [], None =>
        effect (Send ("Page " ++ str page ++ " is not in the playlist.")) ;;
        ret None
    | _, _ =>
        ret (Some (playlist_embed page (total_page p) (current p) section))
    end.

(** Modelled from the spec: [enqueue] raises [NotImplementedError] in the
    abstract class and its overrides are not in the sources.  The spec's
    [enqueue(entry)] appends to the queue and does nothing else. *)
Definition enqueue (e : Entry) : M unit :=
  upd_self (fun p => with_entry_queue (entry_queue p ++ [e]) p).

(** [self.entry_queue.popleft()]. *)
Definition popleft : M Entry :=
  p <- get_self ;;
  match entry_queue p with
  | [] => raise IndexError
  | e :: q => upd_self (with_entry_queue q) ;; ret e
  end.

(** Modelled from the spec: [Entry.play] ([music/entry.py]) is not in the
    sources.  It hands the entry's audio to the sink of the engine's
    channel; the engine has an attached channel from then on. *)
Definition entry_play (cur : Entry) : M unit :=
  p <- get_self ;;
  effect (EntryPlay cur (channel p)) ;;
  c <- get_ctx ;;
  match voice_client c with
  | Some _ => ret tt
  | None => upd_ctx (with_voice_client
                       (Some (VoiceClient.mk (Some (channel p)))))
  end.

(** [stop(ctx, disconnect)].  [vc.disconnect()] leaves [ctx.voice_client]
    unset. *)
Definition stop (disconnect : bool) : M unit :=
  upd_self (with_current None) ;;
  upd_self (with_entry_queue []) ;;
  c <- get_ctx ;;
  let vc := voice_client c in
  (if truthy vc then effect VcStop else ret tt) ;;
  (if truthy vc && disconnect then
     effect VcDisconnect ;;
     upd_ctx (with_voice_client None)
   else ret tt).

(** [__play_next(ctx)]. *)
Definition __play_next : M bool :=
  p <- get_self ;;
  if empty p then
    upd_self (with_playing false) ;;
    stop true ;;
    ret false
  else ret true.

(** One pass of the [while True:] of [__play], from its head down to
    [await self.finished.get()], where the coroutine is suspended. *)
Definition loop_pass : M unit :=
  upd_self (with_playing true) ;;
  cur <- popleft ;;
  upd_self (with_current (Some cur)) ;;
  (if isinstance_YTDLSource (source cur) then effect TriggerTyping
   else ret tt) ;;
  entry_play cur ;;
  effect (Send ("Now playing:" ++ detail cur)) ;;
  set_loop_waiting true.

(** [__play(ctx)], up to the first wait. *)
Definition __play : M unit :=
  p <- get_self ;;
  if empty p then ret tt else loop_pass.

(** [play(ctx)]. *)
Definition play : M unit :=
  p <- get_self ;;
  if playing p then ret tt else __play.

(** The suspended loop is scheduled again: [self.finished.get()] returns
    once the queue holds an item, then [__play_next] decides between
    leaving the loop and another pass. *)
Definition resume : M unit :=
  fun st =>
    if loop_waiting st then
      match finished (self st) with
      | None => (Ok tt, st)
      | Some _ =>
          (upd_self (with_finished None) ;;
           set_loop_waiting false ;;
           continue <- __play_next ;;
           if continue then loop_pass else ret tt) st
      end
    else (Ok tt, st).

(** An entry plays to its end: the sink calls [__after(None)] and the loop
    resumes.  [drain n] lets up to [n] entries finish this way. *)
Fixpoint drain (n : nat) : M unit :=
  match n with
  | O => ret tt
  | S n' =>
      fun st =>
        if loop_waiting st then (__after None ;; resume ;; drain n') st
        else (Ok tt, st)
  end.

Fixpoint enqueue_all (es : list Entry) : M unit :=
  match es with
  | [] => ret tt
  | e :: es' => enqueue e ;; enqueue_all es'
  end.

(** The entries handed to [Entry.play], oldest first. *)
Fixpoint played (l : list Effect) : list Entry :=
  match l with
  | [] => []
  | EntryPlay e _ :: l' => e :: played l'
  | _ :: l' => played l'
  end.

(** ** The voice-channel gate *)

(** Modelled from the spec: [music/playing_status.py] is not in the
    sources.  [NO] is the idle status; every other member of the enum is
    [Active k]. *)
Inductive PlayingStatus := NO | Active (k : nat).

Definition PlayingStatus_eqb (a b : PlayingStatus) : bool :=
  match a, b with
  | NO, NO => true
  | Active j, Active k => Nat.eqb j k
  | _, _ => false
  end.

(** The music player handed to the gate, of which only [playing_status]
    is read. *)
Record MusicPlayer := mkMusicPlayer { playing_status : PlayingStatus }.

(** [ch == ctx_ch] on two references that may be [None]. *)
Definition channel_eqb (a b : option Channel) : bool :=
  match a, b with
  | None, None => true
  | Some x, Some y => Nat.eqb x y
  | _, _ => false
  end.

(** [ctx_ch]: [ctx.voice_client.channel], or [None] when the attribute
    access fails because there is no voice client. *)
Definition attached_channel (c : Context) : option Channel :=
  match voice_client c with
  | Some vc => VoiceClient.channel vc
  | None => None
  end.

(** [check_conditions(ctx, music_player)].  The first line reads
    [ctx.author.voice.channel] outside the [try]; the [try] only guards
    [ctx.voice_client.channel]. *)
Definition check_conditions (c : Context) (music_player : MusicPlayer)
  : result (bool * option string) :=
  match author_voice c with
  | None => Raise AttributeError
  | Some voice =>
      let ch := VoiceState.channel voice in
      let status := playing_status music_player in
      let ctx_ch := attached_channel c in
      if PlayingStatus_eqb status NO && negb (truthy ch) then
        Ok (false, Some "You must be in a voice channel to use this command.")
      else if negb (PlayingStatus_eqb status NO) &&
              negb (channel_eqb ch ctx_ch || negb (truthy ctx_ch)) then
        Ok (false,
            Some ("You must be in the same voice" ++
                  "channel as me to use this command.")%string)
      else Ok (true, None)
  end.

(** ** The rest of the player *)

(** [skip(ctx)].  [Entry.skip] ([music/entry.py]) is not in the sources:
    the triple [(skipped, is_requester, votes)] it returns is the argument
    [vote], and the call itself leaves no record. *)
Definition skip (vote : bool * bool * string) : M unit :=
  p <- get_self ;;
  if negb (truthy (current p)) then
    effect (Send "Not playing anything.")
  else
    let '(skipped, is_requester, votes) := vote in
    c <- get_ctx ;;
    (if skipped && truthy (voice_client c) then effect VcStop else ret tt) ;;
    (if skipped && is_requester then
       effect (Send "Song skipped by requester.")
     else ret tt) ;;
    (if skipped && negb is_requester then
       effect (Send ("Song skipped. " ++ votes))
     else ret tt).

(** ** Runs of the engine *)

(** What can happen to a player: the commands, the sink reporting the end
    of the audio ([__after]), and the suspended loop being scheduled. *)
Inductive event :=
| Enqueue (e : Entry)
| Play
| Stop (disconnect : bool)
| Skip (vote : bool * bool * string)
| Playlist (page : Z)
| Finished (error : option string)
| Resume.

Definition run_event (ev : event) : M unit :=
  match ev with
  | Enqueue e => enqueue e
  | Play => play
  | Stop d => stop d
  | Skip vote => skip vote
  | Playlist page => _ <- playlist page ;; ret tt
  | Finished error => __after error
  | Resume => resume
  end.

(** The state after a list of events; a command that raises leaves the
    state it had reached. *)
Definition exec (evs : list event) (st : State) : State :=
  fold_left (fun s ev => snd (run_event ev s)) evs st.

(** The sink calls [__after] once for each entry handed to it, hence only
    while the loop waits for that call and the completion queue is still
    empty.  Every other event can happen at any time. *)
Definition enabled (ev : event) (st : State) : bool :=
  match ev with
  | Finished _ => loop_waiting st && negb (truthy (finished (self st)))
  | _ => true
  end.

(** The state after a list of events, when each of them can happen where
    it stands in the list. *)
Fixpoint run_events (evs : list event) (st : State) : option State :=
  match evs with
  | [] => Some st
  | ev :: evs' =>
      if enabled ev st then run_events evs' (snd (run_event ev st)) else None
  end.

(** The entries enqueued by a list of events, in order. *)
Fixpoint enqueued (evs : list event) : list Entry :=
  match evs with
  | [] => []
  | Enqueue e :: evs' => e :: enqueued evs'
  | _ :: evs' => enqueued evs'
  end.

Definition is_stop (ev : event) : bool :=
  match ev with Stop _ => true | _ => false end.

(** What the loop keeps true between two events: [playing] is set
    exactly while a loop is suspended on the completion queue; with no
    loop there is no current entry and no pending completion; and a
    pending completion means that [__after] has cleared [current]. *)
Definition loop_invariant (st : State) : Prop :=
  playing (self st) = loop_waiting st /\
  (loop_waiting st = false ->
   current (self st) = None /\ finished (self st) = None) /\
  (finished (self st) <> None -> current (self st) = None).

(** ** Pages *)

(** The section of the queue that [playlist] cuts out for [page]. *)
Definition page_section (p : AbstractMusicPlayer) (page : Z) : list Entry :=
  py_slice (lst p) (10 * (page - 1)) (10 * (page - 1) + 10).




(** The entries of the queue that [playlist(ctx, page)] shows: those of
    the embed it returns, none when it returns [None]. *)
Definition shown (page : Z) (st : State) : list Entry :=
  match fst (playlist page st) with
  | Ok (Some embed) => embed_section embed
  | _ => []
  end.

(** ** Tags of audio files *)

(** A [str], as the list of its code points, and the [str] of a literal
    written in ASCII. *)
Definition pystr := list N.

Definition lit (s : string) : pystr := map Ascii.N_of_ascii (list_ascii_of_string s).

Definition pystr_eqb (a b : pystr) : bool :=
  if list_eq_dec N.eq_dec a b then true else false.

(** [s.endswith(suffix)]. *)
Definition endswith (s suffix : pystr) : bool :=
  (List.length suffix <=? List.length s)%nat &&
  pystr_eqb (skipn (List.length s - List.length suffix) s) suffix.

(** [sep.join(l)]. *)
Fixpoint join (sep : pystr) (l : list pystr) : pystr :=
  match l with
  | [] => []
  | [x] => x
  | x :: l' => x ++ sep ++ join sep l'
  end.

(** A tag value as [__to_string] takes it: a [str], a list of [str], or
    [None]. *)
Inductive Tag :=
| TagStr (s : pystr)
| TagList (l : list pystr)
| TagNone.

(** The text a tag value is made of, before stripping. *)
Definition tag_text (tag : Tag) : option pystr :=
  match tag with
  | TagStr s => Some s
  | TagList l => Some (join (lit ", ") l)
  | TagNone => None
  end.

(** Truthiness of a tag value, for [or]: [None], the empty [str] and the
    empty list are false. *)
Definition tag_truthy (t : Tag) : bool :=
  match t with
  | TagStr [] | TagList [] | TagNone => false
  | _ => true
  end.

Definition py_or (a b : Tag) : Tag := if tag_truthy a then a else b.

(** [s.upper()] on the letters of ASCII, which is all the keys handed to
    it are made of. *)
Definition upper_ascii (c : Ascii.ascii) : Ascii.ascii :=
  let n := Ascii.nat_of_ascii c in
  if ((97 <=? n) && (n <=? 122))%nat then Ascii.ascii_of_nat (n - 32) else c.

Fixpoint upper (s : string) : string :=
  match s with
  | EmptyString => EmptyString
  | String c s' => String (upper_ascii c) (upper s')
  end.

(** [format(n, '02d')] and [f'{n}'] as a [str]. *)
Definition format_02d (n : Z) : pystr :=
  let digits := lit (str n) in
  if (List.length digits <? 2)%nat then lit "0" ++ digits else digits.

(** The three tag readers of mutagen that [get_file_info] chooses from. *)
Inductive Format := FLAC | EasyMP3 | EasyMP4.

(** The [if]/[elif] chain on the end of the path: which reader opens the
    file, if any. *)
Definition reader_for (file_path : pystr) : option Format :=
  if endswith file_path (lit ".flac") then Some FLAC
  else if endswith file_path (lit ".mp3") then Some EasyMP3
  else if endswith file_path (lit "m4a") then Some EasyMP4
  else None.

Section Tags.

(** [str.isspace] on one character: the table of the interpreter. *)
Variable isspace : N -> bool.

(** Floats are not modelled: [float] is the type of a float length and
    [float_length_str] the text that [divmod], [round] and the format
    produce for it. *)
Variable float : Type.
Variable float_length_str : float -> pystr.

(** [tag.info.length]. *)
Inductive Length :=
| LenInt (n : Z)
| LenFloat (x : float)
| LenOther.

(** An opened file: [t.get(key, None)] and [t.info.length]. *)
Record TagFile := mkTagFile {
  tags : string -> Tag;
  info_length : Length
}.

(** [Path(file_path).name], and the constructors [FLAC], [EasyMP3] and
    [EasyMP4], which give the opened file or raise [MutagenError]
    ([None]); an exception of another kind is not caught by
    [get_file_info] and is left out. *)
Variable path_name : pystr -> pystr.
Variable load : Format -> pystr -> option TagFile.

Fixpoint lstrip (s : pystr) : pystr :=
  match s with
  | [] => []
  | c :: s' => if isspace c then lstrip s' else s
  end.

Definition rstrip (s : pystr) : pystr := rev (lstrip (rev s)).

(** [s.strip()]. *)
Definition strip (s : pystr) : pystr := rstrip (lstrip s).

(** [__to_string(tag)]. *)
Definition __to_string (tag : Tag) : option pystr :=
  let res :=
    match tag with
    | TagStr s => Some (strip s)
    | TagList l => Some (strip (join (lit ", ") l))
    | TagNone => None
    end in
  match res with
  | Some [] => None
  | Some r => Some r
  | None => None
  end.

(** [get = lambda t, s: t.get(s, None) or t.get(s.upper(), None)]. *)
Definition get (t : TagFile) (s : string) : Tag :=
  py_or (tags t s) (tags t (upper s)).

(** [get_file_info(file_path)]: [(title, genre, artist, album, length)]. *)
Definition get_file_info (file_path : pystr)
  : option pystr * option pystr * option pystr * option pystr * option pystr :=
  let empty := (Some (path_name file_path), None, None, None, None) in
  match reader_for file_path with
  | None => empty
  | Some format =>
      match load format file_path with
      | None => empty
      | Some tag =>
          let title := py_or (get tag "title") (TagStr (path_name file_path)) in
          let genre := get tag "genre" in
          let artist := get tag "artist" in
          let album := get tag "album" in
          let length_str :=
            match info_length tag with
            | LenInt length =>
                let minutes := (length / 60)%Z in
                let seconds := (length mod 60)%Z in
                Some (lit (str minutes) ++ lit ":" ++ format_02d seconds)
            | LenFloat length => Some (float_length_str length)
            | LenOther => None
            end in
          (__to_string title, __to_string genre,
           __to_string artist, __to_string album, length_str)
      end
  end.

End Tags.

Arguments LenInt {float} n.
Arguments LenFloat {float} x.
Arguments LenOther {float}.
Arguments mkTagFile {float} tags info_length.
Arguments tags {float} t _.
Arguments info_length {float} t.
Arguments get {float} t s.
Arguments get_file_info isspace {float} float_length_str path_name load file_path.

(** A field of the result is clean when its text, if any, is not empty
    and has no whitespace at either end. *)
Definition clean (isspace : N -> bool) (field : option pystr) : Prop :=
  forall r : pystr,
    field = Some r ->
    r <> [] /\
    (forall c, hd_error r = Some c -> isspace c = false) /\
    (forall c, hd_error (rev r) = Some c -> isspace c = false).

(** ** Derived states and contexts *)

(** The spec's count for the claim on [totalPages]: the queued entries
    plus the current one when it is set. *)
Definition queued_plus_current (p : AbstractMusicPlayer) : Z :=
  (Z.of_nat (List.length (entry_queue p)) +
   (if truthy (current p) then 1 else 0))%Z.

(** What [stop] does to the context: the sink is halted when a voice
    client is attached, and with [disconnect] the connection is released
    on top of that. *)
Definition halted (c : Context) : Context :=
  if truthy (voice_client c) then add_effect VcStop c else c.

Definition released (c : Context) : Context :=
  with_voice_client None (add_effect VcDisconnect c).

(** The completion item is taken from [finished] and the coroutine runs
    again. *)
Definition woken (st : State) : State :=
  mkState (with_finished None (self st)) (ctx st) false.

(** [ctx.send(msg)] and nothing else. *)
Definition say (msg : string) (st : State) : State :=
  mkState (self st) (add_effect (Send msg) (ctx st)) (loop_waiting st).

(** The context after one pass of the loop over the entry [e]. *)
Definition pass_ctx (e : Entry) (ch : Channel) (c : Context) : Context :=
  let c1 := if isinstance_YTDLSource (source e)
            then add_effect TriggerTyping c else c in
  let c2 := add_effect (EntryPlay e ch) c1 in
  let c3 := match voice_client c2 with
            | Some _ => c2
            | None => with_voice_client (Some (VoiceClient.mk (Some ch))) c2
            end in
  add_effect (Send ("Now playing:" ++ detail e)) c3.

(** ** Sample states *)

Definition song (n : nat) : Entry :=
  mkEntry n FileSource ("song " ++ str (Z.of_nat n)).

Definition songs (n : nat) : list Entry := map song (seq 0 n).

(** A context whose author sits in channel [7] and whose voice client is
    attached to the same channel. *)
Definition attached_ctx : Context :=
  mkContext (Some (VoiceState.mk (Some 7))) (Some (VoiceClient.mk (Some 7))) [].

(** A context whose author is connected to no voice channel, so that
    [ctx.author.voice] is [None]; nothing is attached. *)
Definition lonely_ctx : Context := mkContext None None [].

(** The author's voice state is there but names no channel. *)
Definition channelless_ctx : Context :=
  mkContext (Some (VoiceState.mk None)) None [].

(** A new player for channel [7]. *)
Definition fresh : State := mkState (__init__ 7) attached_ctx false.

(** Three entries were enqueued and [play] was called: the first one is
    playing, two are queued, the loop is suspended. *)
Definition midway : State := snd ((enqueue_all (songs 3) ;; play) fresh).

(** Ten entries were enqueued and [play] was called: nine are queued
    while the first one is playing. *)
Definition nine_queued_one_playing : AbstractMusicPlayer :=
  self (snd ((enqueue_all (songs 10) ;; play) fresh)).

(** The only entry has just finished: the callback has filled the
    completion queue and cleared [current], nothing is queued, and the
    loop is still suspended. *)
Definition drained_waiting : State :=
  snd ((enqueue (song 0) ;; play ;; __after None) fresh).


(** A schedule that mixes commands, completions and wake-ups. *)
Definition busy_evening : list event :=
  [Enqueue (song 0); Play; Enqueue (song 1); Playlist 1;
   Skip (true, false, "1/2"); Finished None; Resume; Enqueue (song 2);
   Finished (Some "broken pipe"); Play; Resume; Finished None; Resume].

(** Whitespace within ASCII: tab to carriage return, the four
    separators and the space. *)
Definition ascii_isspace (c : N) : bool :=
  ((9 <=? c) && (c <=? 13) || (28 <=? c) && (c <=? 31) || (c =? 32))%N.

(** A file system with one readable FLAC file, [yoru.flac], whose title is
    padded with blanks, whose artist is a list, whose genre is blank, and
    which lasts 185 seconds; [noise.mp3] cannot be parsed. *)
Definition sample_tags (key : string) : Tag :=
  if String.eqb key "title" then TagStr (lit "  Yoru no Uta ")
  else if String.eqb key "ARTIST" then TagList [lit "Aoi"; lit "Ren"]
  else if String.eqb key "genre" then TagStr (lit "   ")
  else TagNone.

Definition sample_load (format : Format) (file_path : pystr)
  : option (TagFile unit) :=
  match format with
  | FLAC =>
      if pystr_eqb file_path (lit "music/yoru.flac")
      then Some (mkTagFile sample_tags (LenInt 185)) else None
  | _ => None
  end.

(** The last component of a path written with slashes. *)
Fixpoint sample_name_from (acc s : pystr) : pystr :=
  match s with
  | [] => acc
  | c :: s' => if (c =? 47)%N then sample_name_from [] s'
               else sample_name_from (acc ++ [c]) s'
  end.

Definition sample_name (file_path : pystr) : pystr :=
  sample_name_from [] file_path.

Definition sample_info (file_path : pystr) :=
  get_file_info ascii_isspace (fun _ : unit => lit "0:00")
                sample_name sample_load file_path.

(** ** Properties *)

Ltac open_state st :=
  destruct st as [[?ch ?q ?cur ?fin ?pl] [?av ?vc ?eff] ?lw].

(** The sample states, spelled out. *)
Example midway_state :
  self midway = mkPlayer 7 [song 1; song 2] (Some (song 0)) None true /\
  loop_waiting midway = true /\
  voice_client (ctx midway) = Some (VoiceClient.mk (Some 7)).
Proof. repeat split. Qed.

Example drained_waiting_state :
  self drained_waiting = mkPlayer 7 [] None (Some (Some (song 0))) true /\
  loop_waiting drained_waiting = true /\
  voice_client (ctx drained_waiting) = Some (VoiceClient.mk (Some 7)).
Proof. repeat split. Qed.

(** *** [empty] *)

(** C7.  In every engine state, hence in every reachable one, [empty] is
    true exactly when [current] is unset and the queue has length zero. *)
Theorem empty_iff_no_current_and_no_queue (p : AbstractMusicPlayer) :
  empty p = true <->
  current p = None /\ List.length (entry_queue p) = 0%nat.
Proof.
  destruct p as [ch q cur fin pl]; unfold empty; simpl.
  destruct cur as [e|], q as [|e' q']; simpl; split;
    try discriminate; try (intros [H1 H2]; discriminate); auto.
Qed.

(** *** Pagination: the page count *)

(** C2, as stated, fails: with nine entries queued and one playing the
    count is ten, and [total_page] is 1, not [10 // 10 + 1 = 2]. *)
Lemma total_page_ignores_current :
  queued_plus_current nine_queued_one_playing = 10%Z /\
  total_page nine_queued_one_playing = 1%Z /\
  total_page nine_queued_one_playing <>
    (queued_plus_current nine_queued_one_playing / 10 + 1)%Z.
Proof. repeat split. vm_compute. discriminate. Qed.

(** C2, amended.  [total_page] is [n // 10 + 1] for the number [n] of
    queued entries alone: the current entry does not count.  It is at
    least 1, and an exact multiple [n = 10 * k] gives [k + 1]. *)
Theorem total_page_of_queue_length :
  forall (p : AbstractMusicPlayer) (c : option Entry),
    let n := Z.of_nat (List.length (entry_queue p)) in
    total_page (with_current c p) = (n / 10 + 1)%Z /\
    (1 <= total_page p)%Z /\
    (forall k : Z, n = (10 * k)%Z -> total_page p = (k + 1)%Z).
Proof.
  intros p c n. unfold total_page, with_current; cbn [entry_queue]. fold n.
  assert (Hn : (0 <= n)%Z) by (unfold n; lia).
  clearbody n. repeat split.
  - pose proof (Z.div_pos n 10 Hn ltac:(lia)). lia.
  - intros k Hk. subst n.
    replace (10 * k)%Z with (k * 10)%Z by lia.
    rewrite Z.div_mul by lia. reflexivity.
Qed.

Lemma total_page_of_queue_length_witness :
  total_page (with_current None nine_queued_one_playing) = 1%Z /\
  total_page (mkPlayer 7 (songs 20) None None false) = 3%Z.
Proof.
  split.
  - exact (proj1 (total_page_of_queue_length nine_queued_one_playing None)).
  - exact (proj2 (proj2 (total_page_of_queue_length
                           (mkPlayer 7 (songs 20) None None false) None))
                 2%Z eq_refl).
Defined.

(** *** [play] while playing *)

(** C6.  [play] called while [playing] is true returns at once: no
    exception, no second loop, and the whole state (queue, [current],
    [playing], the context and the suspended loop) is as before. *)
Theorem play_while_playing_is_noop (st : State) :
  playing (self st) = true -> play st = (Ok tt, st).
Proof.
  intros H. unfold play, bind, get_self. rewrite H. reflexivity.
Qed.

Lemma play_while_playing_is_noop_witness :
  playing (self midway) = true /\ play midway = (Ok tt, midway).
Proof.
  split; [reflexivity | apply play_while_playing_is_noop; reflexivity].
Defined.

(** *** [stop] *)

Lemma stop_run (disconnect : bool) (st : State) :
  stop disconnect st =
  (Ok tt,
   mkState
     (mkPlayer (channel (self st)) [] None
               (finished (self st)) (playing (self st)))
     (if truthy (voice_client (ctx st)) && disconnect
      then released (halted (ctx st)) else halted (ctx st))
     (loop_waiting st)).
Proof.
  open_state st. destruct vc as [v|], disconnect; reflexivity.
Qed.

(** C3, as stated, fails: [stop] called while the loop is suspended
    returns with [playing] still true. *)
Lemma stop_leaves_playing_set :
  let s := snd (stop false midway) in
  ~ (entry_queue (self s) = [] /\ current (self s) = None /\
     playing (self s) = false).
Proof. simpl. intros (_ & _ & H). discriminate H. Qed.

(** C3, amended.  In every engine state [stop] returns without an
    exception and leaves the queue cleared and [current] unset; it does
    not write [playing], which is as it was before the call. *)
Theorem stop_clears_queue_and_current :
  forall (disconnect : bool) (st : State),
    let s := snd (stop disconnect st) in
    fst (stop disconnect st) = Ok tt /\
    entry_queue (self s) = [] /\
    current (self s) = None /\
    playing (self s) = playing (self st).
Proof.
  intros d st. rewrite stop_run. cbn. auto.
Qed.

(** It is the play loop that clears [playing]: once it is woken after a
    [stop] it finds the engine empty and leaves. *)
Lemma loop_idles_after_stop :
  forall (disconnect : bool) (st : State),
    loop_waiting st = true ->
    finished (self st) = None ->
    let r := (stop disconnect ;; __after None ;; resume) st in
    fst r = Ok tt /\
    self (snd r) = mkPlayer (channel (self st)) [] None None false /\
    loop_waiting (snd r) = false.
Proof.
  intros d st Hw Hf. open_state st. simpl in Hw, Hf. subst.
  destruct vc as [v|], d; cbn; auto.
Qed.

(** C5.  [stop(ctx, True)] and [stop(ctx, False)] both return normally
    with an empty queue and no current entry, and leave the same player
    and the same suspended loop.  They differ in the context only:
    [stop(ctx, False)] keeps the voice client, [stop(ctx, True)] releases
    it when there is one. *)
Theorem stop_true_and_stop_false :
  forall st : State,
    let s1 := snd (stop true st) in
    let s0 := snd (stop false st) in
    fst (stop true st) = Ok tt /\ fst (stop false st) = Ok tt /\
    List.length (entry_queue (self s1)) = 0%nat /\ current (self s1) = None /\
    List.length (entry_queue (self s0)) = 0%nat /\ current (self s0) = None /\
    self s1 = self s0 /\ loop_waiting s1 = loop_waiting s0 /\
    voice_client (ctx s0) = voice_client (ctx st) /\
    ctx s1 = (if truthy (voice_client (ctx st))
              then released (ctx s0) else ctx s0).
Proof.
  intros st. rewrite !stop_run. open_state st.
  destruct vc as [v|]; cbn; repeat split.
Qed.

(** *** The loop after a completion *)

(** C1, as stated, fails.  The last entry has finished and the engine is
    empty: the loop does not stop with [disconnect=False], it releases
    the voice connection. *)
Lemma resume_disconnects_when_drained :
  empty (self (woken drained_waiting)) = true /\
  snd (resume drained_waiting) <>
    snd ((upd_self (with_playing false) ;; stop false)
           (woken drained_waiting)) /\
  In VcDisconnect (effects (ctx (snd (resume drained_waiting)))) /\
  voice_client (ctx (snd (resume drained_waiting))) = None.
Proof.
  repeat split.
  - cbv. discriminate.
  - cbv. auto.
Qed.

Lemma __play_next_run (st : State) :
  __play_next st =
  if empty (self st)
  then (Ok false,
        snd (stop true (mkState (with_playing false (self st)) (ctx st)
                                (loop_waiting st))))
  else (Ok true, st).
Proof.
  unfold __play_next, bind, get_self.
  destruct (empty (self st)); [|reflexivity].
  unfold upd_self at 1. rewrite stop_run. reflexivity.
Qed.

Lemma resume_run (st : State) (item : option Entry) :
  loop_waiting st = true ->
  finished (self st) = Some item ->
  resume st =
  if empty (self (woken st))
  then (Ok tt,
        snd (stop true (mkState (with_playing false (self (woken st)))
                                (ctx st) false)))
  else loop_pass (woken st).
Proof.
  intros Hw Hf.
  assert (E : resume st =
              (continue <- __play_next ;;
               if continue then loop_pass else ret tt) (woken st)).
  { unfold resume. rewrite Hw, Hf. reflexivity. }
  rewrite E. unfold bind. rewrite __play_next_run.
  destruct (empty (self (woken st))); reflexivity.
Qed.

(** C1, amended.  When the loop is woken by a completion item and the
    engine is then empty, it sets [playing] to false, performs
    [stop(ctx, True)], that is a stop with disconnect, and leaves the
    loop; otherwise it goes through the next pass of the loop. *)
Theorem resume_after_completion :
  forall (st : State) (item : option Entry),
    loop_waiting st = true ->
    finished (self st) = Some item ->
    (empty (self (woken st)) = true ->
     resume st =
       (Ok tt,
        snd (stop true (mkState (with_playing false (self (woken st)))
                                (ctx st) false))) /\
     playing (self (snd (resume st))) = false /\
     loop_waiting (snd (resume st)) = false) /\
    (empty (self (woken st)) = false ->
     resume st = loop_pass (woken st)).
Proof.
  intros st item Hw Hf. rewrite (resume_run st item Hw Hf).
  split; intros He; rewrite He.
  - rewrite stop_run. cbn. auto.
  - reflexivity.
Qed.

Lemma resume_after_completion_witness :
  resume drained_waiting =
    (Ok tt,
     snd (stop true
            (mkState (with_playing false (self (woken drained_waiting)))
                     (ctx drained_waiting) false))) /\
  resume (snd (__after None midway)) =
    loop_pass (woken (snd (__after None midway))).
Proof.
  split.
  - refine (proj1 (proj1 (resume_after_completion drained_waiting
                            (Some (song 0)) eq_refl eq_refl) eq_refl)).
  - refine (proj2 (resume_after_completion (snd (__after None midway))
                     (Some (song 0)) eq_refl eq_refl) eq_refl).
Defined.

(** *** The gate *)

Lemma PlayingStatus_eqb_eq (a b : PlayingStatus) :
  PlayingStatus_eqb a b = true <-> a = b.
Proof.
  destruct a as [|j], b as [|k]; simpl; split; intros H;
    try discriminate; try reflexivity.
  - apply Nat.eqb_eq in H. now subst.
  - inversion H. apply Nat.eqb_refl.
Qed.

(** The caller of an idle engine whose voice state is there and names no
    channel is turned away with the message. *)
Lemma gate_rejects_channelless_caller :
  forall (c : Context) (mp : MusicPlayer) (voice : VoiceState.t),
    author_voice c = Some voice ->
    VoiceState.channel voice = None ->
    playing_status mp = NO ->
    check_conditions c mp =
      Ok (false, Some "You must be in a voice channel to use this command.").
Proof.
  intros c mp voice Hv Hc Hs. unfold check_conditions.
  rewrite Hv, Hc, Hs. reflexivity.
Qed.

(** A caller connected to no voice channel has no voice state at all, and
    then the gate raises whatever the status. *)
Lemma gate_raises_without_voice_state :
  forall (c : Context) (mp : MusicPlayer),
    author_voice c = None -> check_conditions c mp = Raise AttributeError.
Proof.
  intros c mp Hv. unfold check_conditions. rewrite Hv. reflexivity.
Qed.

(** C9, on the code.  The engine is idle and the caller is in no voice
    channel, so that [ctx.author.voice] is [None]: the gate raises
    [AttributeError] instead of returning the rejection. *)
Theorem gate_raises_for_caller_outside_voice :
  check_conditions lonely_ctx (mkMusicPlayer NO) = Raise AttributeError /\
  check_conditions lonely_ctx (mkMusicPlayer NO) <>
    Ok (false, Some "You must be in a voice channel to use this command.").
Proof. split; [reflexivity | discriminate]. Qed.

(** C10.  When the caller's voice state can be read, the status is not
    [PlayingStatus.NO] and no attached channel is recorded, the gate
    allows the call and carries no message, whatever channel the caller
    is in, none included. *)
Theorem gate_allows_active_unattached :
  forall (c : Context) (mp : MusicPlayer) (voice : VoiceState.t),
    author_voice c = Some voice ->
    playing_status mp <> NO ->
    attached_channel c = None ->
    check_conditions c mp = Ok (true, None).
Proof.
  intros c mp voice Hv Hs Ha. unfold check_conditions. rewrite Hv, Ha.
  destruct (PlayingStatus_eqb (playing_status mp) NO) eqn:E.
  - apply PlayingStatus_eqb_eq in E. contradiction.
  - simpl. rewrite orb_true_r. reflexivity.
Qed.

Lemma gate_allows_active_unattached_witness :
  check_conditions channelless_ctx (mkMusicPlayer (Active 1)) = Ok (true, None) /\
  check_conditions (mkContext (Some (VoiceState.mk (Some 3))) None [])
                   (mkMusicPlayer (Active 2)) = Ok (true, None).
Proof.
  split.
  - apply (gate_allows_active_unattached channelless_ctx
             (mkMusicPlayer (Active 1)) (VoiceState.mk None));
      [reflexivity | discriminate | reflexivity].
  - apply (gate_allows_active_unattached
             (mkContext (Some (VoiceState.mk (Some 3))) None [])
             (mkMusicPlayer (Active 2)) (VoiceState.mk (Some 3)));
      [reflexivity | discriminate | reflexivity].
Defined.

(** *** Pagination: [playlist] *)

(** From page 1 on the section is the window of ten entries that starts
    at index [10 * (page - 1)], cut at the end of the queue. *)
Lemma py_slice_window {A} (l : list A) (start : Z) :
  (0 <= start)%Z ->
  py_slice l start (start + 10) = firstn 10 (skipn (Z.to_nat start) l).
Proof.
  intros H0. unfold py_slice, slice_bound.
  destruct (Z.ltb_spec start 0); [lia|].
  destruct (Z.ltb_spec (start + 10) 0); [lia|].
  set (len := List.length l).
  destruct (Z_le_gt_dec (Z.of_nat len) start) as [Hout|Hin].
  - rewrite !Z.min_r by lia. rewrite Z.sub_diag, Nat2Z.id. simpl.
    rewrite (skipn_all2 l) by (fold len; lia). reflexivity.
  - rewrite (Z.min_l start) by lia.
    destruct (Z_le_gt_dec (start + 10) (Z.of_nat len)) as [Hfull|Hcut].
    + rewrite Z.min_l by lia. f_equal. lia.
    + rewrite Z.min_r by lia.
      rewrite !firstn_all2; trivial; rewrite length_skipn; fold len; lia.
Qed.

(** Page 0 asks for [l[-10:0]], which is empty for every queue. *)
Lemma py_slice_page_zero {A} (l : list A) : py_slice l (-10) (-10 + 10) = [].
Proof.
  unfold py_slice, slice_bound. simpl (-10 + 10)%Z. cbn [Z.ltb Z.compare].
  rewrite Z.min_l by lia.
  replace (Z.to_nat (0 - _)) with 0%nat by lia. reflexivity.
Qed.

(** The spec's example: twelve entries queued and one playing. *)
Example playlist_second_page_of_twelve :
  let st := mkState (mkPlayer 7 (songs 12) (Some (song 100)) None true)
                    attached_ctx true in
  playlist 2 st =
  (Ok (Some (playlist_embed 2 2 (Some (song 100)) [song 10; song 11])), st).
Proof. reflexivity. Qed.

(** A negative page is no error either: both bounds of the section then
    count from the end of the queue. *)
Example playlist_negative_page :
  let st := mkState (mkPlayer 7 (songs 12) None None false) attached_ctx false in
  playlist (-1) st =
    (Ok (Some (playlist_embed (-1) 2 None [song 0; song 1])), st) /\
  playlist 0 st = (Ok None, say "Page 0 is not in the playlist." st) /\
  playlist 3 st = (Ok None, say "Page 3 is not in the playlist." st).
Proof. repeat split. Qed.







(** *** The play loop: order of playing *)

Lemma played_app (l l' : list Effect) :
  played (l ++ l') = played l ++ played l'.
Proof.
  induction l as [|x l IH]; simpl; [reflexivity|].
  destruct x; simpl; now rewrite IH.
Qed.

Lemma played_pass_ctx (e : Entry) (ch : Channel) (c : Context) :
  played (effects (pass_ctx e ch c)) = played (effects c) ++ [e].
Proof.
  unfold pass_ctx. destruct c as [av vc eff].
  destruct (isinstance_YTDLSource (source e)), vc as [v|]; cbn;
    rewrite ?played_app; cbn; rewrite ?app_nil_r, <- ?app_assoc; reflexivity.
Qed.

(** A pass takes the head of the queue, and nothing else, out of it. *)
Lemma loop_pass_run (st : State) (e : Entry) (q : list Entry) :
  entry_queue (self st) = e :: q ->
  loop_pass st =
  (Ok tt,
   mkState (mkPlayer (channel (self st)) q (Some e)
                     (finished (self st)) true)
           (pass_ctx e (channel (self st)) (ctx st))
           true).
Proof.
  intros Hq. open_state st. simpl in Hq. subst.
  unfold pass_ctx.
  destruct (isinstance_YTDLSource (source e)) eqn:Hs, vc as [v|];
    cbn; rewrite Hs; reflexivity.
Qed.

(** On an empty queue the pass fails in [popleft] with [playing] set. *)
Lemma loop_pass_on_empty_queue (st : State) :
  entry_queue (self st) = [] ->
  loop_pass st =
  (Raise IndexError,
   mkState (with_playing true (self st)) (ctx st) (loop_waiting st)).
Proof.
  intros Hq. open_state st. simpl in Hq. subst. reflexivity.
Qed.

Lemma enqueue_all_run (es : list Entry) (st : State) :
  enqueue_all es st =
  (Ok tt,
   mkState (with_entry_queue (entry_queue (self st) ++ es) (self st))
           (ctx st) (loop_waiting st)).
Proof.
  revert st. induction es as [|e es IH]; intros st.
  - open_state st. cbn. now rewrite app_nil_r.
  - cbn [enqueue_all]. unfold bind. cbn [enqueue upd_self].
    rewrite IH. cbn. now rewrite <- app_assoc.
Qed.

Lemma drain_S (n : nat) (st : State) :
  drain (S n) st =
  if loop_waiting st then (__after None ;; resume ;; drain n) st
  else (Ok tt, st).
Proof. reflexivity. Qed.

(** From a suspended loop with [q] still queued, letting the entries
    finish one after the other plays [q] in order and ends idle. *)
Lemma drain_plays_queue :
  forall (q : list Entry) (st : State),
    loop_waiting st = true ->
    finished (self st) = None ->
    entry_queue (self st) = q ->
    let r := drain (S (List.length q)) st in
    fst r = Ok tt /\
    played (effects (ctx (snd r))) = played (effects (ctx st)) ++ q /\
    self (snd r) = mkPlayer (channel (self st)) [] None None false /\
    loop_waiting (snd r) = false.
Proof.
  induction q as [|e q IH]; intros st Hw Hf Hq.
  - open_state st. simpl in Hw, Hf, Hq. subst.
    destruct vc as [v|]; cbn; rewrite ?played_app, ?app_nil_r; cbn;
      rewrite ?app_nil_r; auto.
  - set (st1 := mkState (mkPlayer (channel (self st)) (e :: q) None
                                  (Some (current (self st)))
                                  (playing (self st)))
                        (ctx st) true).
    assert (Hafter : __after None st = (Ok tt, st1)).
    { open_state st. simpl in Hw, Hf, Hq. subst. reflexivity. }
    set (st2 := mkState (mkPlayer (channel (self st)) q (Some e) None true)
                        (pass_ctx e (channel (self st)) (ctx st)) true).
    assert (Hres : resume st1 = (Ok tt, st2)).
    { rewrite (resume_run st1 (current (self st))) by reflexivity.
      cbn -[loop_pass]. now rewrite (loop_pass_run _ e q). }
    assert (E : drain (S (List.length (e :: q))) st =
                drain (S (List.length q)) st2).
    { cbn [List.length]. rewrite drain_S, Hw.
      unfold bind at 1. rewrite Hafter.
      unfold bind at 1. rewrite Hres. reflexivity. }
    cbv zeta. rewrite E.
    destruct (IH st2 eq_refl eq_refl eq_refl) as (R1 & R2 & R3 & R4).
    repeat split; trivial.
    rewrite R2. unfold st2; cbn [ctx]. rewrite played_pass_ctx.
    now rewrite <- app_assoc.
Qed.

(** C4.  On a fresh player, enqueueing [es], calling [play] and letting
    every entry play to its end plays exactly [es], in the order of
    enqueueing: the i-th entry played is the i-th entry enqueued.  The run
    raises nothing and ends with the loop left and the queue empty.
    Each pass of the loop removes the head of the queue and plays it. *)
Theorem play_is_fifo :
  forall (es : list Entry) (ch : Channel)
         (voice : option VoiceState.t) (vc : option VoiceClient.t),
    let st0 := mkState (__init__ ch) (mkContext voice vc []) false in
    let r := (enqueue_all es ;; play ;; drain (List.length es)) st0 in
    fst r = Ok tt /\
    played (effects (ctx (snd r))) = es /\
    (forall i : nat,
        nth_error (played (effects (ctx (snd r)))) i = nth_error es i) /\
    entry_queue (self (snd r)) = [] /\
    loop_waiting (snd r) = false /\
    (forall (st : State) (e : Entry) (q : list Entry),
        entry_queue (self st) = e :: q ->
        fst (loop_pass st) = Ok tt /\
        entry_queue (self (snd (loop_pass st))) = q /\
        current (self (snd (loop_pass st))) = Some e /\
        played (effects (ctx (snd (loop_pass st)))) =
          played (effects (ctx st)) ++ [e]).
Proof.
  intros es ch voice vc st0 r.
  assert (Hpass : forall (st : State) (e : Entry) (q : list Entry),
             entry_queue (self st) = e :: q ->
             fst (loop_pass st) = Ok tt /\
             entry_queue (self (snd (loop_pass st))) = q /\
             current (self (snd (loop_pass st))) = Some e /\
             played (effects (ctx (snd (loop_pass st)))) =
               played (effects (ctx st)) ++ [e]).
  { intros st e q Hq. rewrite (loop_pass_run st e q Hq). cbn.
    repeat split. apply played_pass_ctx. }
  assert (H : fst r = Ok tt /\ played (effects (ctx (snd r))) = es /\
              entry_queue (self (snd r)) = [] /\
              loop_waiting (snd r) = false).
  { destruct es as [|e q].
    - cbn. auto.
    - set (st1 := mkState (mkPlayer ch q (Some e) None true)
                          (pass_ctx e ch (mkContext voice vc [])) true).
      assert (Er : r = drain (S (List.length q)) st1).
      { subst r. unfold bind. rewrite enqueue_all_run.
        assert (Hplay : play (mkState (with_entry_queue
                                         (entry_queue (self st0) ++ e :: q)
                                         (self st0))
                                      (ctx st0) (loop_waiting st0))
                        = (Ok tt, st1)).
        { unfold play, __play, bind, get_self. cbn -[loop_pass].
          now rewrite (loop_pass_run _ e q). }
        rewrite Hplay. reflexivity. }
      rewrite Er.
      destruct (drain_plays_queue q st1 eq_refl eq_refl eq_refl)
        as (R1 & R2 & R3 & R4).
      repeat split; trivial.
      + rewrite R2. unfold st1; cbn [ctx]. now rewrite played_pass_ctx.
      + now rewrite R3. }
  destruct H as (H1 & H2 & H3 & H4).
  split; [exact H1|]. split; [exact H2|].
  split; [intros i; now rewrite H2|].
  split; [exact H3|]. split; [exact H4|exact Hpass].
Qed.

Lemma play_is_fifo_witness :
  played (effects (ctx (snd ((enqueue_all (songs 3) ;; play ;; drain 3)
                               (mkState (__init__ 7) lonely_ctx false))))) =
    [song 0; song 1; song 2] /\
  current (self (snd (loop_pass midway))) = Some (song 1).
Proof.
  split.
  - exact (proj1 (proj2 (play_is_fifo (songs 3) 7 None None))).
  - exact (proj1 (proj2 (proj2
             (proj2 (proj2 (proj2 (proj2 (proj2
                (play_is_fifo (songs 3) 7 None None)))))
                midway (song 1) [song 2] eq_refl)))).
Defined.

(** What was queued before a [stop] is never played afterwards. *)
Example stop_forgets_queue :
  played (effects (ctx (snd
    ((enqueue (song 1) ;; enqueue (song 2) ;; stop false ;;
      enqueue (song 3) ;; play ;; drain 1) fresh)))) = [song 3].
Proof. reflexivity. Qed.

(** *** Runs: what the loop keeps true *)

Lemma play_run (st : State) :
  play st =
  if playing (self st) then (Ok tt, st)
  else if empty (self st) then (Ok tt, st) else loop_pass st.
Proof.
  unfold play, __play, bind, get_self.
  destruct (playing (self st)); [reflexivity|].
  destruct (empty (self st)); reflexivity.
Qed.

(** [skip] and [playlist] touch the context only. *)
Lemma skip_run (vote : bool * bool * string) (st : State) :
  exists c : Context,
    skip vote st = (Ok tt, mkState (self st) c (loop_waiting st)) /\
    author_voice c = author_voice (ctx st) /\
    voice_client c = voice_client (ctx st) /\
    played (effects c) = played (effects (ctx st)).
Proof.
  destruct vote as [[skipped is_requester] votes]. open_state st.
  destruct cur as [e|], skipped, is_requester, vc as [v|]; cbn;
    eexists; (split; [reflexivity|]); cbn;
    rewrite ?played_app, ?app_nil_r; auto.
Qed.

Lemma playlist_run (page : Z) (st : State) :
  exists (r : option Embed) (c : Context),
    playlist page st = (Ok r, mkState (self st) c (loop_waiting st)) /\
    voice_client c = voice_client (ctx st) /\
    played (effects c) = played (effects (ctx st)).
Proof.
  open_state st. unfold playlist, bind, get_self. cbn [self].
  destruct (empty _).
  - do 2 eexists. split; [reflexivity|]. cbn.
    rewrite played_app, app_nil_r. auto.
  - cbv zeta. destruct (py_slice _ _ _), (current _);
      do 2 eexists; (split; [reflexivity|]); cbn;
      rewrite ?played_app, ?app_nil_r; auto.
Qed.

Lemma not_empty_without_current (p : AbstractMusicPlayer) :
  empty p = false -> current p = None ->
  exists e q, entry_queue p = e :: q.
Proof.
  destruct p as [ch q cur fin pl]. unfold empty. simpl.
  intros He Hc. subst. destruct q as [|e q]; [discriminate|eauto].
Qed.

Ltac close_invariant :=
  split; [reflexivity|]; unfold loop_invariant; cbn;
  intuition (auto; try discriminate; try congruence).

Lemma loop_invariant_step (ev : event) (st : State) :
  loop_invariant st -> enabled ev st = true ->
  fst (run_event ev st) = Ok tt /\ loop_invariant (snd (run_event ev st)).
Proof.
  intros (Hp & Hidle & Hfin) Hen. destruct ev as [e| |d|vote|page|err|].
  - open_state st. cbn in Hp, Hidle, Hfin. close_invariant.
  - cbn [run_event]. rewrite play_run.
    destruct (playing (self st)) eqn:Epl.
    { split; [reflexivity|]. cbn [snd]. unfold loop_invariant.
      rewrite Epl. auto. }
    destruct (empty (self st)) eqn:Eem.
    { split; [reflexivity|]. cbn [snd]. unfold loop_invariant.
      rewrite Epl. auto. }
    destruct (Hidle (eq_sym Hp)) as [Hc Hf].
    destruct (not_empty_without_current _ Eem Hc) as (e & q & Hq).
    rewrite (loop_pass_run st e q Hq). close_invariant.
  - cbn [run_event]. rewrite stop_run. close_invariant.
  - cbn [run_event]. destruct (skip_run vote st) as (c & E & _).
    rewrite E. close_invariant.
  - cbn [run_event]. unfold bind.
    destruct (playlist_run page st) as (r & c & E & _).
    rewrite E. close_invariant.
  - open_state st. cbn in Hen, Hp, Hidle, Hfin.
    apply andb_true_iff in Hen. destruct Hen as [Hw Hfree]. subst.
    destruct fin as [item|]; [discriminate|].
    destruct err as [msg|]; close_invariant.
  - cbn [run_event].
    destruct (loop_waiting st) eqn:Ew.
    2:{ unfold resume. rewrite Ew. split; [reflexivity|]. cbn.
        unfold loop_invariant. rewrite Ew. auto. }
    destruct (finished (self st)) as [item|] eqn:Ef.
    2:{ unfold resume. rewrite Ew, Ef. split; [reflexivity|]. cbn.
        unfold loop_invariant. rewrite Ew, Ef. auto. }
    rewrite (resume_run st item Ew Ef).
    destruct (empty (self (woken st))) eqn:Eem.
    + rewrite stop_run. close_invariant.
    + assert (Hc : current (self (woken st)) = None).
      { cbn. apply Hfin. discriminate. }
      destruct (not_empty_without_current _ Eem Hc) as (e & q & Hq).
      rewrite (loop_pass_run _ e q Hq). close_invariant.
Qed.

Lemma loop_invariant_init (ch : Channel) (c : Context) :
  loop_invariant (mkState (__init__ ch) c false).
Proof. repeat split; auto. Qed.

Lemma run_events_invariant (evs : list event) :
  forall st st' : State,
    loop_invariant st -> run_events evs st = Some st' -> loop_invariant st'.
Proof.
  induction evs as [|ev evs IH]; intros st st' Hinv Hrun; cbn in Hrun.
  - injection Hrun as <-. exact Hinv.
  - destruct (enabled ev st) eqn:Hen; [|discriminate].
    apply (IH _ _ (proj2 (loop_invariant_step ev st Hinv Hen)) Hrun).
Qed.

(** X1.  From a new player, along any list of events in which the sink
    reports a completion only for an entry that is playing, no command,
    callback or wake-up raises: [popleft] never meets an empty queue and
    [put_nowait] never meets a full completion queue. *)
Theorem scheduled_run_never_raises :
  forall (evs : list event) (ch : Channel) (c : Context)
         (st : State) (ev : event),
    run_events evs (mkState (__init__ ch) c false) = Some st ->
    enabled ev st = true ->
    fst (run_event ev st) = Ok tt.
Proof.
  intros evs ch c st ev Hrun Hen.
  apply loop_invariant_step; [|exact Hen].
  exact (run_events_invariant evs _ _ (loop_invariant_init ch c) Hrun).
Qed.

Lemma scheduled_run_never_raises_witness :
  fst (run_event Resume (exec busy_evening fresh)) = Ok tt /\
  fst (run_event Play (exec busy_evening fresh)) = Ok tt.
Proof.
  split.
  - apply (scheduled_run_never_raises busy_evening 7 attached_ctx
             (exec busy_evening fresh) Resume); vm_compute; reflexivity.
  - apply (scheduled_run_never_raises busy_evening 7 attached_ctx
             (exec busy_evening fresh) Play); vm_compute; reflexivity.
Defined.

(** X2.  In every state such a run reaches, [playing] is true exactly
    while a play loop is suspended on the completion queue, and an engine
    that is not playing has no current entry and no pending completion. *)
Theorem playing_flag_tracks_loop :
  forall (evs : list event) (ch : Channel) (c : Context) (st : State),
    run_events evs (mkState (__init__ ch) c false) = Some st ->
    playing (self st) = loop_waiting st /\
    (playing (self st) = false ->
     current (self st) = None /\ finished (self st) = None).
Proof.
  intros evs ch c st Hrun.
  destruct (run_events_invariant evs _ _ (loop_invariant_init ch c) Hrun)
    as (Hp & Hidle & _).
  split; [exact Hp|]. intros H. apply Hidle. now rewrite <- Hp.
Qed.

Lemma playing_flag_tracks_loop_witness :
  playing (self (exec busy_evening fresh)) =
    loop_waiting (exec busy_evening fresh) /\
  playing (self midway) = loop_waiting midway.
Proof.
  split.
  - apply (playing_flag_tracks_loop busy_evening 7 attached_ctx
             (exec busy_evening fresh)); vm_compute; reflexivity.
  - apply (playing_flag_tracks_loop
             [Enqueue (song 0); Enqueue (song 1); Enqueue (song 2); Play]
             7 attached_ctx midway); vm_compute; reflexivity.
Defined.

(** *** Runs: order of playing *)

Lemma loop_pass_keeps_order (st : State) :
  played (effects (ctx (snd (loop_pass st)))) ++
    entry_queue (self (snd (loop_pass st))) =
  played (effects (ctx st)) ++ entry_queue (self st).
Proof.
  destruct (entry_queue (self st)) as [|e q] eqn:Hq.
  - rewrite (loop_pass_on_empty_queue st Hq). cbn. now rewrite Hq.
  - rewrite (loop_pass_run st e q Hq). cbn [snd ctx self entry_queue].
    now rewrite played_pass_ctx, <- app_assoc.
Qed.

(** Halting the sink and releasing the connection play nothing. *)
Lemma played_halted (c : Context) :
  played (effects (halted c)) = played (effects c).
Proof.
  unfold halted. destruct (truthy (voice_client c)); cbn;
    rewrite ?played_app; cbn; rewrite ?app_nil_r; reflexivity.
Qed.

Lemma played_released (c : Context) :
  played (effects (released c)) = played (effects c).
Proof. cbn. rewrite played_app. cbn. now rewrite app_nil_r. Qed.

Lemma played_after_stop (disconnect : bool) (st : State) :
  played (effects (ctx (snd (stop disconnect st)))) =
  played (effects (ctx st)).
Proof.
  rewrite stop_run. cbn [snd ctx].
  destruct (truthy (voice_client (ctx st)) && disconnect);
    now rewrite ?played_released, played_halted.
Qed.

Lemma empty_queue_nil (p : AbstractMusicPlayer) :
  empty p = true -> entry_queue p = [].
Proof.
  destruct p as [ch q cur fin pl]. unfold empty. simpl.
  destruct cur, q; simpl; intros H; try discriminate; reflexivity.
Qed.

Lemma event_keeps_order (ev : event) (st : State) :
  is_stop ev = false ->
  played (effects (ctx (snd (run_event ev st)))) ++
    entry_queue (self (snd (run_event ev st))) =
  played (effects (ctx st)) ++ entry_queue (self st) ++ enqueued [ev].
Proof.
  intros Hns. destruct ev as [e| |d|vote|page|err|]; cbn [enqueued];
    rewrite ?app_nil_r; try discriminate.
  - open_state st. reflexivity.
  - cbn [run_event]. rewrite play_run.
    destruct (playing (self st)); [reflexivity|].
    destruct (empty (self st)); [reflexivity|].
    apply loop_pass_keeps_order.
  - cbn [run_event]. destruct (skip_run vote st) as (c & E & _ & _ & Hpl).
    rewrite E. cbn. now rewrite Hpl.
  - cbn [run_event]. unfold bind.
    destruct (playlist_run page st) as (r & c & E & _ & Hpl).
    rewrite E. cbn. now rewrite Hpl.
  - open_state st. destruct err as [msg|], fin as [item|]; cbn;
      rewrite ?played_app; cbn; rewrite ?app_nil_r; reflexivity.
  - cbn [run_event].
    destruct (loop_waiting st) eqn:Ew.
    2:{ unfold resume. now rewrite Ew. }
    destruct (finished (self st)) as [item|] eqn:Ef.
    2:{ unfold resume. now rewrite Ew, Ef. }
    rewrite (resume_run st item Ew Ef).
    destruct (empty (self (woken st))) eqn:Eem.
    + apply empty_queue_nil in Eem. cbn in Eem. rewrite Eem.
      cbn [snd]. rewrite played_after_stop, stop_run. reflexivity.
    + rewrite loop_pass_keeps_order. reflexivity.
Qed.

Lemma exec_app (evs evs' : list event) (st : State) :
  exec (evs ++ evs') st = exec evs' (exec evs st).
Proof. apply fold_left_app. Qed.

Lemma run_events_exec (evs : list event) :
  forall st st' : State, run_events evs st = Some st' -> st' = exec evs st.
Proof.
  induction evs as [|ev evs IH]; intros st st' H; cbn in H.
  - now injection H as <-.
  - destruct (enabled ev st); [|discriminate]. now apply IH.
Qed.

Lemma exec_keeps_order (evs : list event) :
  forall st : State,
    forallb (fun ev => negb (is_stop ev)) evs = true ->
    played (effects (ctx (exec evs st))) ++ entry_queue (self (exec evs st)) =
    played (effects (ctx st)) ++ entry_queue (self st) ++ enqueued evs.
Proof.
  induction evs as [|ev evs IH]; intros st Hns.
  - cbn. now rewrite app_nil_r.
  - cbn in Hns. apply andb_true_iff in Hns. destruct Hns as [Hev Hns].
    apply negb_true_iff in Hev.
    change (exec (ev :: evs) st) with (exec evs (snd (run_event ev st))).
    rewrite (IH _ Hns), app_assoc, (event_keeps_order ev st Hev).
    rewrite <- !app_assoc. do 2 f_equal.
    destruct ev; reflexivity.
Qed.

(** X3.  Along any list of events without a [stop], whatever their order,
    the entries played so far followed by the entries still queued are
    the entries that were there followed by the entries enqueued, in the
    order of enqueueing.  From a new player: what has been played is
    always a prefix of what has been enqueued, and what is queued is the
    rest. *)
Theorem played_then_queued_is_enqueued :
  forall (evs : list event) (st : State),
    forallb (fun ev => negb (is_stop ev)) evs = true ->
    played (effects (ctx (exec evs st))) ++ entry_queue (self (exec evs st)) =
    played (effects (ctx st)) ++ entry_queue (self st) ++ enqueued evs.
Proof. intros evs st. apply exec_keeps_order. Qed.

Lemma played_then_queued_is_enqueued_witness :
  played (effects (ctx (exec busy_evening fresh))) ++
    entry_queue (self (exec busy_evening fresh)) =
  [song 0; song 1; song 2].
Proof.
  rewrite (played_then_queued_is_enqueued busy_evening fresh);
    vm_compute; reflexivity.
Defined.

(** X4.  What is queued when [stop] is called is never played: after the
    [stop], along any list of events without another one, the entries
    played since, followed by the queue, are exactly the entries enqueued
    after the [stop]. *)
Theorem stopped_entries_never_play :
  forall (before after : list event) (disconnect : bool) (st : State),
    forallb (fun ev => negb (is_stop ev)) after = true ->
    let stopped := exec (before ++ [Stop disconnect]) st in
    let final := exec after stopped in
    played (effects (ctx stopped)) = played (effects (ctx (exec before st))) /\
    played (effects (ctx final)) ++ entry_queue (self final) =
    played (effects (ctx stopped)) ++ enqueued after.
Proof.
  intros before after d st Hns stopped final.
  assert (Hs : stopped = snd (stop d (exec before st))).
  { unfold stopped. now rewrite exec_app. }
  split.
  - rewrite Hs. apply played_after_stop.
  - unfold final. rewrite (exec_keeps_order after stopped Hns).
    rewrite Hs at 2. rewrite stop_run. reflexivity.
Qed.

Lemma stopped_entries_never_play_witness :
  played (effects (ctx (exec
    ([Enqueue (song 1); Enqueue (song 2); Stop false] ++
     [Enqueue (song 3); Play; Finished None; Resume]) fresh))) = [song 3].
Proof.
  assert (Hns : forallb (fun ev => negb (is_stop ev))
                  [Enqueue (song 3); Play; Finished None; Resume] = true)
    by reflexivity.
  pose proof (proj2 (stopped_entries_never_play
    [Enqueue (song 1); Enqueue (song 2)]
    [Enqueue (song 3); Play; Finished None; Resume] false fresh Hns)) as H.
  cbv zeta in H. rewrite <- exec_app in H.
  vm_compute in H. vm_compute. exact H.
Defined.

(** *** Pages: what paging through the playlist shows *)

Lemma py_slice_nil {A} (start stop : Z) : py_slice (@nil A) start stop = [].
Proof. unfold py_slice. now rewrite skipn_nil, firstn_nil. Qed.

Lemma shown_is_page_section (page : Z) (st : State) :
  shown page st = page_section (self st) page.
Proof.
  unfold shown, playlist, bind, get_self, page_section.
  destruct (empty (self st)) eqn:He.
  - apply empty_queue_nil in He. unfold lst. rewrite He.
    now rewrite py_slice_nil.
  - cbv zeta. destruct (py_slice _ _ _), (current (self st)); reflexivity.
Qed.

Lemma page_section_window (p : AbstractMusicPlayer) (k : nat) :
  page_section p (Z.of_nat (S k)) = firstn 10 (skipn (10 * k) (entry_queue p)).
Proof.
  unfold page_section. rewrite py_slice_window by lia.
  unfold lst. do 2 f_equal. lia.
Qed.

Lemma firstn_plus {A} (a b : nat) (l : list A) :
  firstn (a + b) l = firstn a l ++ firstn b (skipn a l).
Proof.
  revert l. induction a as [|a IH]; intros l; [reflexivity|].
  destruct l as [|x l]; cbn; [now rewrite firstn_nil|]. now rewrite IH.
Qed.

Lemma windows_concat {A} (l : list A) (m : nat) :
  List.concat (map (fun k => firstn 10 (skipn (10 * k) l)) (seq 0 m)) =
  firstn (10 * m) l.
Proof.
  induction m as [|m IH]; [reflexivity|].
  rewrite seq_S, map_app, concat_app, IH. cbn [map List.concat].
  rewrite app_nil_r, Nat.add_0_l.
  replace (10 * S m)%nat with (10 * m + 10)%nat by lia.
  now rewrite firstn_plus.
Qed.

(** X5.  Paging from page 1 to page [total_page] shows every queued entry
    exactly once and in the order of the queue. *)
Theorem pages_cover_queue :
  forall st : State,
    List.concat (map (fun k => shown (Z.of_nat (S k)) st)
                (seq 0 (Z.to_nat (total_page (self st))))) =
    entry_queue (self st).
Proof.
  intros st.
  rewrite (map_ext _ (fun k => firstn 10 (skipn (10 * k) (entry_queue (self st))))).
  2:{ intros k. now rewrite shown_is_page_section, page_section_window. }
  rewrite windows_concat. apply firstn_all2.
  unfold total_page.
  set (n := List.length (entry_queue (self st))).
  assert (H : (Z.of_nat n < 10 * (Z.of_nat n / 10 + 1))%Z).
  { pose proof (Z.mul_succ_div_gt (Z.of_nat n) 10 ltac:(lia)). lia. }
  assert (0 <= Z.of_nat n / 10)%Z by (apply Z.div_pos; lia).
  lia.
Qed.

(** X6.  From page 1 on, a page shows [min 10 (len - 10 * (page - 1))]
    entries of a queue of length [len], none when that is negative: never
    more than ten, and none on any page after [total_page]. *)
Theorem page_size :
  forall (page : Z) (st : State),
    let len := Z.of_nat (List.length (entry_queue (self st))) in
    (1 <= page)%Z ->
    List.length (shown page st) =
      Z.to_nat (Z.min 10 (len - 10 * (page - 1))) /\
    (List.length (shown page st) <= 10)%nat /\
    ((total_page (self st) < page)%Z -> shown page st = []).
Proof.
  intros page st len Hp.
  assert (Hlen : List.length (shown page st) =
                 Z.to_nat (Z.min 10 (len - 10 * (page - 1)))).
  { rewrite shown_is_page_section. unfold page_section.
    rewrite py_slice_window by lia.
    rewrite length_firstn, length_skipn. unfold lst, len. lia. }
  split; [exact Hlen|]. split; [lia|].
  intros Hpast. apply length_zero_iff_nil. rewrite Hlen.
  unfold total_page in Hpast. fold len in Hpast.
  pose proof (Z.mul_succ_div_gt len 10 ltac:(lia)). lia.
Qed.

Lemma page_size_witness :
  List.length (shown 2 (mkState (mkPlayer 7 (songs 12) None None false)
                                attached_ctx false)) = 2%nat /\
  shown 3 (mkState (mkPlayer 7 (songs 12) None None false)
                   attached_ctx false) = [].
Proof.
  split.
  - exact (proj1 (page_size 2 (mkState (mkPlayer 7 (songs 12) None None false)
                                       attached_ctx false) ltac:(lia))).
  - apply (page_size 3 (mkState (mkPlayer 7 (songs 12) None None false)
                                attached_ctx false)); [lia|reflexivity].
Defined.

(** X7.  On an engine that is not empty, page 1 is always there:
    [playlist(ctx, 1)] returns an embed with the first ten queued entries
    (or all of them when fewer), sends nothing and changes nothing. *)
Theorem first_page_always_there :
  forall st : State,
    empty (self st) = false ->
    playlist 1 st =
      (Ok (Some (playlist_embed 1 (total_page (self st)) (current (self st))
                                (firstn 10 (entry_queue (self st))))),
       st).
Proof.
  intros st He. unfold playlist, bind, get_self. rewrite He. cbv zeta.
  change (10 * (1 - 1))%Z with 0%Z.
  rewrite (py_slice_window (lst (self st)) 0) by lia.
  change (Z.to_nat 0) with 0%nat. cbn [skipn]. unfold lst.
  destruct (current (self st)) as [c|] eqn:Hc.
  - destruct (firstn 10 (entry_queue (self st))); reflexivity.
  - destruct (not_empty_without_current _ He Hc) as (e & q & Hq).
    rewrite Hq. reflexivity.
Qed.

Lemma first_page_always_there_witness :
  playlist 1 midway =
    (Ok (Some (playlist_embed 1 1 (Some (song 0)) [song 1; song 2])), midway).
Proof. exact (first_page_always_there midway eq_refl). Defined.

(** X8.  [total_page] counts a page that [playlist] refuses: when the
    queue holds a positive multiple of ten entries and nothing is
    current, page [total_page] has no entry and [playlist] answers that
    it is not in the playlist. *)
Theorem last_counted_page_missing :
  forall (st : State) (k : nat),
    List.length (entry_queue (self st)) = (10 * S k)%nat ->
    current (self st) = None ->
    total_page (self st) = Z.of_nat (S k + 1) /\
    playlist (total_page (self st)) st =
      (Ok None,
       say ("Page " ++ str (total_page (self st)) ++ " is not in the playlist.")
           st).
Proof.
  intros st k Hlen Hc.
  assert (Ht : total_page (self st) = Z.of_nat (S k + 1)).
  { unfold total_page. rewrite Hlen.
    replace (Z.of_nat (10 * S k)) with (Z.of_nat (S k) * 10)%Z by lia.
    rewrite Z.div_mul by lia. lia. }
  split; [exact Ht|].
  assert (Hs : page_section (self st) (total_page (self st)) = []).
  { rewrite Ht. replace (S k + 1)%nat with (S (S k)) by lia.
    rewrite page_section_window. rewrite skipn_all2 by lia.
    apply firstn_nil. }
  assert (He : empty (self st) = false).
  { unfold empty. rewrite Hc. destruct (entry_queue (self st)); [discriminate|].
    reflexivity. }
  unfold playlist, bind, get_self. rewrite He. cbv zeta.
  unfold page_section in Hs. rewrite Hs, Hc. reflexivity.
Qed.

Lemma last_counted_page_missing_witness :
  playlist 2 (mkState (mkPlayer 7 (songs 10) None None false)
                      attached_ctx false) =
    (Ok None, say "Page 2 is not in the playlist."
                  (mkState (mkPlayer 7 (songs 10) None None false)
                           attached_ctx false)).
Proof.
  exact (proj2 (last_counted_page_missing
                  (mkState (mkPlayer 7 (songs 10) None None false)
                           attached_ctx false) 0 eq_refl eq_refl)).
Defined.

(** X9.  Page numbers below 1 are not refused as such.  Page 0 never has
    an entry.  A negative page counts from the end of the queue: it has no
    entry when the queue holds at most [-10 * page] entries, and otherwise
    it shows the entries that stop [-10 * page] places before the end, ten
    of them or as many as there are before that point. *)
Theorem negative_page_counts_from_end :
  forall st : State,
    let l := entry_queue (self st) in
    let len := Z.of_nat (List.length l) in
    shown 0 st = [] /\
    (forall page : Z,
        (page < 0)%Z ->
        ((len <= -10 * page)%Z -> shown page st = []) /\
        ((-10 * page < len)%Z ->
         exists pre post : list Entry,
           l = pre ++ shown page st ++ post /\
           List.length post = Z.to_nat (-10 * page) /\
           List.length (shown page st) =
             Z.to_nat (Z.min 10 (len + 10 * page)))).
Proof.
  intros st l len. split.
  { rewrite shown_is_page_section. apply py_slice_page_zero. }
  intros page Hneg.
  rewrite shown_is_page_section. unfold page_section, py_slice, slice_bound, lst.
  fold l. fold len.
  destruct (Z.ltb_spec (10 * (page - 1)) 0); [|lia].
  destruct (Z.ltb_spec (10 * (page - 1) + 10) 0); [|lia].
  split; intros Hlen.
  - replace (Z.to_nat _) with 0%nat by lia. reflexivity.
  - set (lo := Z.to_nat (Z.max (10 * (page - 1) + len) 0)).
    set (hi := Z.to_nat (Z.max (10 * (page - 1) + 10 + len) 0)).
    replace (Z.to_nat (Z.max (10 * (page - 1) + 10 + len) 0 -
                       Z.max (10 * (page - 1) + len) 0))
      with (hi - lo)%nat by lia.
    exists (firstn lo l), (skipn hi l). repeat split.
    + rewrite <- (firstn_skipn lo l) at 1. f_equal.
      rewrite <- (firstn_skipn (hi - lo) (skipn lo l)) at 1. f_equal.
      rewrite skipn_skipn. f_equal. lia.
    + rewrite length_skipn. unfold len in *. lia.
    + rewrite length_firstn, length_skipn. unfold len in *. lia.
Qed.

Lemma negative_page_counts_from_end_witness :
  shown (-1) (mkState (mkPlayer 7 (songs 8) None None false)
                      attached_ctx false) = [] /\
  List.length (shown (-1) (mkState (mkPlayer 7 (songs 25) None None false)
                                   attached_ctx false)) = 10%nat.
Proof.
  split.
  - refine (proj1 (proj2 (negative_page_counts_from_end
                            (mkState (mkPlayer 7 (songs 8) None None false)
                                     attached_ctx false))
                         (-1)%Z eq_refl) _).
    vm_compute. discriminate.
  - destruct (proj2 (proj2 (negative_page_counts_from_end
                              (mkState (mkPlayer 7 (songs 25) None None false)
                                       attached_ctx false))
                           (-1)%Z eq_refl) eq_refl)
      as (pre & post & _ & _ & H).
    exact H.
Defined.

(** *** [skip] *)

(** X10.  [skip] never raises and never touches the player, the loop or
    the voice connection.  With nothing current it only answers that
    nothing is playing.  A vote that does not pass leaves no trace at
    all.  A vote that passes halts the sink when a voice client is
    attached and then sends one message, which one depending on whether
    the requester asked. *)
Theorem skip_cases :
  forall (skipped is_requester : bool) (votes : string) (st : State),
    exists c : Context,
      skip (skipped, is_requester, votes) st =
        (Ok tt, mkState (self st) c (loop_waiting st)) /\
      voice_client c = voice_client (ctx st) /\
      author_voice c = author_voice (ctx st) /\
      (current (self st) = None ->
       effects c = effects (ctx st) ++ [Send "Not playing anything."]) /\
      (current (self st) <> None -> skipped = false -> c = ctx st) /\
      (current (self st) <> None -> skipped = true ->
       effects c =
         effects (ctx st) ++
         (if truthy (voice_client (ctx st)) then [VcStop] else []) ++
         [Send (if is_requester then "Song skipped by requester."
                else "Song skipped. " ++ votes)]).
Proof.
  intros skipped is_requester votes st. open_state st.
  destruct cur as [e|], skipped, is_requester, vc as [v|]; cbn;
    eexists; (split; [reflexivity|]); cbn;
    repeat split; intros; try congruence;
    rewrite <- ?app_assoc; reflexivity.
Qed.

Lemma skip_cases_witness :
  effects (ctx (snd (skip (true, false, "2/3") midway))) =
    effects (ctx midway) ++ [VcStop; Send "Song skipped. 2/3"] /\
  snd (skip (false, false, "1/3") midway) = midway.
Proof.
  split.
  - destruct (skip_cases true false "2/3" midway)
      as (c & E & _ & _ & _ & _ & H).
    rewrite E. cbn [snd ctx]. rewrite H; [reflexivity|discriminate|reflexivity].
  - destruct (skip_cases false false "1/3" midway)
      as (c & E & _ & _ & _ & H & _).
    rewrite E. cbn [snd]. rewrite H; [reflexivity|discriminate|reflexivity].
Defined.

(** *** [stop] followed by another command *)

(** X11.  Right after a [stop], [play] does nothing, whatever the state:
    the queue has just been cleared, so no loop is started and nothing is
    played. *)
Theorem play_after_stop_is_noop :
  forall (disconnect : bool) (st : State),
    (stop disconnect ;; play) st = stop disconnect st.
Proof.
  intros d st. unfold bind at 1. rewrite stop_run, play_run.
  cbn [self playing]. destruct (playing (self st)); reflexivity.
Qed.

(** X12.  After a [stop] with disconnect, a further [stop] of either kind
    changes nothing: there is no voice client left to halt or to disconnect
    from. *)
Theorem stop_after_disconnect_is_noop :
  forall (disconnect : bool) (st : State),
    (stop true ;; stop disconnect) st = stop true st.
Proof.
  intros d st. unfold bind. rewrite (stop_run true st), stop_run.
  open_state st. destruct vc as [v|], d; reflexivity.
Qed.

(** *** The completion callback *)

(** X13.  The completion queue holds one item.  [__after] on a free queue
    hands over the current entry and clears [current], leaving the queue
    of entries, [playing] and the loop alone.  [__after] on an occupied
    queue raises [QueueFull] before it clears [current]: the player is
    left exactly as it was.  In both cases a reported error is logged
    first. *)
Theorem after_hands_over_once :
  forall (error : option string) (st : State),
    let logged :=
      match error with
      | Some msg => add_effect (LogWarn msg) (ctx st)
      | None => ctx st
      end in
    (finished (self st) = None ->
     __after error st =
       (Ok tt,
        mkState (mkPlayer (channel (self st)) (entry_queue (self st)) None
                          (Some (current (self st))) (playing (self st)))
                logged (loop_waiting st))) /\
    (finished (self st) <> None ->
     __after error st =
       (Raise QueueFull, mkState (self st) logged (loop_waiting st))).
Proof.
  intros error st. open_state st.
  destruct error as [msg|], fin as [item|]; cbn; split; intros H;
    first [reflexivity | congruence].
Qed.

Lemma after_hands_over_once_witness :
  fst (__after None midway) = Ok tt /\
  fst ((__after None ;; __after None) midway) = Raise QueueFull.
Proof.
  split.
  - exact (f_equal fst (proj1 (after_hands_over_once None midway) eq_refl)).
  - unfold bind.
    rewrite (proj1 (after_hands_over_once None midway) eq_refl).
    refine (f_equal fst (proj2 (after_hands_over_once None _) _)).
    discriminate.
Defined.

(** *** The gate: when it allows, rejects and raises *)

Lemma channel_eqb_eq (a b : option Channel) :
  channel_eqb a b = true <-> a = b.
Proof.
  destruct a as [x|], b as [y|]; simpl; split; intros H;
    try discriminate; try reflexivity.
  - apply Nat.eqb_eq in H. now subst.
  - injection H as ->. apply Nat.eqb_refl.
Qed.

(** X14.  When the caller's voice state can be read the gate returns a
    pair and does not raise.  It allows the call exactly when the engine
    is idle and the caller is in some voice channel, or the engine is not
    idle and either no attached channel is recorded or the caller is in
    the attached channel.  A message comes exactly with a rejection, and
    it is the must-join message for an idle engine and the same-channel
    message otherwise. *)
Theorem gate_decision :
  forall (c : Context) (mp : MusicPlayer) (voice : VoiceState.t),
    author_voice c = Some voice ->
    let ch := VoiceState.channel voice in
    let att := attached_channel c in
    exists (allowed : bool) (msg : option string),
      check_conditions c mp = Ok (allowed, msg) /\
      (allowed = true <->
       (playing_status mp = NO /\ ch <> None) \/
       (playing_status mp <> NO /\ (att = None \/ ch = att))) /\
      (msg = None <-> allowed = true) /\
      (allowed = false ->
       msg = Some (if PlayingStatus_eqb (playing_status mp) NO
                   then "You must be in a voice channel to use this command."
                   else "You must be in the same voicechannel as me to use this command.")).
Proof.
  intros c mp voice Hv ch att. unfold check_conditions. rewrite Hv.
  fold ch. fold att.
  destruct (PlayingStatus_eqb (playing_status mp) NO) eqn:Es.
  - apply PlayingStatus_eqb_eq in Es.
    destruct ch as [x|]; cbn; do 2 eexists; (split; [reflexivity|]);
      repeat split; intros; try congruence;
      try (left; split; congruence);
      intuition congruence.
  - assert (Hs : playing_status mp <> NO).
    { intros H. apply PlayingStatus_eqb_eq in H. congruence. }
    destruct (channel_eqb ch att) eqn:Ec.
    + apply channel_eqb_eq in Ec.
      cbn; do 2 eexists; (split; [reflexivity|]);
        repeat split; intros; try congruence. right. auto.
    + assert (Hc : ch <> att).
      { intros H. apply channel_eqb_eq in H. congruence. }
      destruct att as [a|]; cbn; do 2 eexists; (split; [reflexivity|]);
        repeat split; intros; try congruence;
        try (right; auto; fail); intuition congruence.
Qed.

Lemma gate_decision_witness :
  check_conditions attached_ctx (mkMusicPlayer NO) = Ok (true, None) /\
  check_conditions
    (mkContext (Some (VoiceState.mk (Some 3))) (Some (VoiceClient.mk (Some 7))) [])
    (mkMusicPlayer (Active 1)) =
  Ok (false,
      Some "You must be in the same voicechannel as me to use this command.").
Proof.
  split.
  - destruct (gate_decision attached_ctx (mkMusicPlayer NO)
                (VoiceState.mk (Some 7)) eq_refl)
      as (allowed & msg & E & Hiff & Hmsg & _).
    assert (Ha : allowed = true).
    { apply Hiff. left. split; [reflexivity|discriminate]. }
    rewrite E, Ha, (proj2 Hmsg Ha). reflexivity.
  - destruct (gate_decision
                (mkContext (Some (VoiceState.mk (Some 3)))
                           (Some (VoiceClient.mk (Some 7))) [])
                (mkMusicPlayer (Active 1)) (VoiceState.mk (Some 3)) eq_refl)
      as (allowed & msg & E & Hiff & _ & Hrej).
    assert (Ha : allowed = false).
    { destruct allowed; [|reflexivity].
      destruct (proj1 Hiff eq_refl) as [[H _]|[_ [H|H]]]; discriminate H. }
    rewrite E, Ha, (Hrej Ha). reflexivity.
Defined.

(** X15.  The gate raises exactly when the caller has no voice state, and
    then it raises [AttributeError], whatever the status of the engine and
    whatever the voice client: the rejections are reached only by callers
    who have a voice state. *)
Theorem gate_raises_iff_no_voice_state :
  forall (c : Context) (mp : MusicPlayer),
    (author_voice c = None <-> check_conditions c mp = Raise AttributeError) /\
    (forall e : exn, check_conditions c mp = Raise e -> author_voice c = None).
Proof.
  intros c mp.
  assert (H : forall e : exn,
             check_conditions c mp = Raise e -> author_voice c = None).
  { intros e. unfold check_conditions.
    destruct (author_voice c) as [voice|]; [|reflexivity].
    destruct (_ && _); [discriminate|].
    destruct (_ && _); discriminate. }
  split; [split|exact H].
  - apply gate_raises_without_voice_state.
  - apply H.
Qed.

Lemma gate_raises_iff_no_voice_state_witness :
  check_conditions lonely_ctx (mkMusicPlayer (Active 1)) = Raise AttributeError.
Proof.
  exact (proj1 (proj1 (gate_raises_iff_no_voice_state
                         lonely_ctx (mkMusicPlayer (Active 1)))) eq_refl).
Defined.

(** *** Tags: [__to_string] *)

Section TagText.

Variable isspace : N -> bool.

(** [lstrip] cuts off the longest prefix of whitespace. *)
Lemma lstrip_split (s : pystr) :
  exists pre : pystr,
    s = pre ++ lstrip isspace s /\ forallb isspace pre = true /\
    (forall c, hd_error (lstrip isspace s) = Some c -> isspace c = false).
Proof.
  induction s as [|c s (pre & E & Hpre & Hhd)].
  - exists []. repeat split. discriminate.
  - cbn [lstrip]. destruct (isspace c) eqn:Hc.
    + exists (c :: pre). cbn. rewrite Hc, Hpre. repeat split; auto.
      now rewrite <- E.
    + exists []. repeat split. cbn. intros c' H. now injection H as <-.
Qed.

Lemma forallb_rev {A} (f : A -> bool) (l : list A) :
  forallb f (rev l) = forallb f l.
Proof.
  induction l as [|x l IH]; [reflexivity|].
  cbn. rewrite forallb_app, IH. cbn. rewrite andb_true_r. apply andb_comm.
Qed.

Lemma rstrip_split (s : pystr) :
  exists suf : pystr,
    s = rstrip isspace s ++ suf /\ forallb isspace suf = true /\
    (forall c, hd_error (rev (rstrip isspace s)) = Some c -> isspace c = false).
Proof.
  unfold rstrip. destruct (lstrip_split (rev s)) as (pre & E & Hpre & Hhd).
  exists (rev pre). repeat split.
  - rewrite <- rev_app_distr, <- E. now rewrite rev_involutive.
  - now rewrite forallb_rev.
  - now rewrite rev_involutive.
Qed.

(** [strip] removes whitespace around the text and nothing else, and what
    it leaves neither starts nor ends with whitespace. *)
Lemma strip_split (s : pystr) :
  exists pre suf : pystr,
    s = pre ++ strip isspace s ++ suf /\
    forallb isspace pre = true /\ forallb isspace suf = true /\
    (forall c, hd_error (strip isspace s) = Some c -> isspace c = false) /\
    (forall c, hd_error (rev (strip isspace s)) = Some c -> isspace c = false).
Proof.
  unfold strip.
  destruct (lstrip_split s) as (pre & E1 & Hpre & Hhd).
  destruct (rstrip_split (lstrip isspace s)) as (suf & E2 & Hsuf & Hlast).
  exists pre, suf. repeat split; auto.
  - now rewrite <- E2.
  - intros c Hc. apply Hhd. rewrite E2.
    destruct (rstrip isspace (lstrip isspace s)); [discriminate|exact Hc].
Qed.

Lemma lstrip_all_space (s : pystr) :
  forallb isspace s = true -> lstrip isspace s = [].
Proof.
  induction s as [|c s IH]; [reflexivity|]. cbn.
  destruct (isspace c); [exact IH|discriminate].
Qed.

Lemma strip_nil_iff (s : pystr) :
  strip isspace s = [] <-> forallb isspace s = true.
Proof.
  split.
  - intros H. destruct (strip_split s) as (pre & suf & E & Hpre & Hsuf & _).
    rewrite H in E. rewrite E. cbn. now rewrite forallb_app, Hpre, Hsuf.
  - intros H. unfold strip. now rewrite (lstrip_all_space s H).
Qed.

Lemma lstrip_fixed (s : pystr) :
  (forall c, hd_error s = Some c -> isspace c = false) ->
  lstrip isspace s = s.
Proof.
  destruct s as [|c s]; [reflexivity|]. intros H. cbn.
  now rewrite (H c eq_refl).
Qed.

Lemma strip_fixed (s : pystr) :
  (forall c, hd_error s = Some c -> isspace c = false) ->
  (forall c, hd_error (rev s) = Some c -> isspace c = false) ->
  strip isspace s = s.
Proof.
  intros Hhd Hlast. unfold strip, rstrip.
  rewrite (lstrip_fixed s Hhd), (lstrip_fixed (rev s) Hlast).
  apply rev_involutive.
Qed.

Lemma __to_string_text (tag : Tag) :
  __to_string isspace tag =
  match tag_text tag with
  | Some s =>
      match strip isspace s with [] => None | _ :: _ => Some (strip isspace s) end
  | None => None
  end.
Proof. destruct tag; reflexivity. Qed.

Lemma __to_string_split (tag : Tag) (r : pystr) :
  __to_string isspace tag = Some r ->
  r <> [] /\
  (forall c, hd_error r = Some c -> isspace c = false) /\
  (forall c, hd_error (rev r) = Some c -> isspace c = false) /\
  exists text pre suf : pystr,
    tag_text tag = Some text /\ text = pre ++ r ++ suf /\
    forallb isspace pre = true /\ forallb isspace suf = true.
Proof.
  intros H. rewrite __to_string_text in H.
  destruct (tag_text tag) as [text|]; [|discriminate].
  destruct (strip_split text) as (pre & suf & E & Hpre & Hsuf & Hhd & Hlast).
  destruct (strip isspace text) as [|c r'] eqn:Es; [discriminate|].
  injection H as <-. repeat split; auto; [discriminate|].
  exists text, pre, suf. auto.
Qed.

(** X16.  A string returned by [__to_string] is never empty and neither
    starts nor ends with whitespace; it is the text of the tag (for a
    list, its items joined by a comma and a space) with whitespace taken
    off the two ends and nothing else changed. *)
Theorem to_string_is_stripped_text :
  forall (tag : Tag) (r : pystr),
    __to_string isspace tag = Some r ->
    r <> [] /\
    (forall c, hd_error r = Some c -> isspace c = false) /\
    (forall c, hd_error (rev r) = Some c -> isspace c = false) /\
    exists text pre suf : pystr,
      tag_text tag = Some text /\ text = pre ++ r ++ suf /\
      forallb isspace pre = true /\ forallb isspace suf = true.
Proof. intros tag r. apply __to_string_split. Qed.

(** X17.  [__to_string] returns [None] exactly when there is no text or
    the text is whitespace from end to end: for [None], for the empty
    string and the empty list, and for strings and joined lists made of
    whitespace only. *)
Theorem to_string_none_iff :
  forall tag : Tag,
    __to_string isspace tag = None <->
    match tag_text tag with
    | Some text => forallb isspace text = true
    | None => True
    end.
Proof.
  intros tag. rewrite __to_string_text.
  destruct (tag_text tag) as [text|]; [|tauto].
  rewrite <- strip_nil_iff.
  destruct (strip isspace text); split; intros H; congruence.
Qed.

(** X18.  [__to_string] is idempotent: handing it a string it returned
    gives that string back. *)
Theorem to_string_idempotent :
  forall (tag : Tag) (r : pystr),
    __to_string isspace tag = Some r ->
    __to_string isspace (TagStr r) = Some r.
Proof.
  intros tag r H.
  destruct (__to_string_split tag r H) as (Hne & Hhd & Hlast & _).
  unfold __to_string. rewrite (strip_fixed r Hhd Hlast).
  destruct r; [contradiction|reflexivity].
Qed.

End TagText.

Lemma to_string_is_stripped_text_witness :
  __to_string ascii_isspace (TagStr (lit "  Yoru no Uta ")) =
    Some (lit "Yoru no Uta") /\
  lit "Yoru no Uta" <> [].
Proof.
  split; [reflexivity|].
  exact (proj1 (to_string_is_stripped_text ascii_isspace
                  (TagStr (lit "  Yoru no Uta ")) (lit "Yoru no Uta") eq_refl)).
Defined.

Lemma to_string_none_iff_witness :
  __to_string ascii_isspace (TagStr (lit "   ")) = None.
Proof.
  exact (proj2 (to_string_none_iff ascii_isspace (TagStr (lit "   "))) eq_refl).
Defined.

Lemma to_string_idempotent_witness :
  __to_string ascii_isspace (TagStr (lit "Aoi, Ren")) = Some (lit "Aoi, Ren").
Proof.
  exact (to_string_idempotent ascii_isspace
           (TagList [lit " Aoi"; lit "Ren "]) (lit "Aoi, Ren") eq_refl).
Defined.

(** *** Tags: [get_file_info] *)

Section FileInfo.

Variable isspace : N -> bool.
Variable float : Type.
Variable float_length_str : float -> pystr.
Variable path_name : pystr -> pystr.
Variable load : Format -> pystr -> option (TagFile float).

Local Notation "'info'" :=
  (get_file_info isspace float_length_str path_name load).

(** X19.  A file that no reader is chosen for, and a file whose reader
    raises [MutagenError], both give the bare file name as title - as
    [Path(file_path).name] has it, not stripped - and [None] for genre,
    artist, album and length. *)
Theorem file_info_falls_back_to_name :
  forall file_path : pystr,
    reader_for file_path = None \/
    (exists format : Format,
        reader_for file_path = Some format /\ load format file_path = None) ->
    info file_path = (Some (path_name file_path), None, None, None, None).
Proof.
  intros file_path [H|(format & H & Hl)]; unfold get_file_info; rewrite H.
  - reflexivity.
  - now rewrite Hl.
Qed.

Lemma file_info_loaded (file_path : pystr) (format : Format)
      (tag : TagFile float) :
  reader_for file_path = Some format ->
  load format file_path = Some tag ->
  info file_path =
  (__to_string isspace
     (py_or (get tag "title") (TagStr (path_name file_path))),
   __to_string isspace (get tag "genre"),
   __to_string isspace (get tag "artist"),
   __to_string isspace (get tag "album"),
   match info_length tag with
   | LenInt length =>
       Some (lit (str (length / 60)) ++ lit ":" ++ format_02d (length mod 60))
   | LenFloat length => Some (float_length_str length)
   | LenOther => None
   end).
Proof.
  intros H Hl. unfold get_file_info. now rewrite H, Hl.
Qed.

Lemma __to_string_clean (tag : Tag) : clean isspace (__to_string isspace tag).
Proof.
  intros r H. destruct (__to_string_split isspace tag r H) as (A & B & C & _).
  auto.
Qed.

(** X20.  When the file is read, each of title, genre, artist and album
    is either [None] or a text that is not empty and neither starts nor
    ends with whitespace. *)
Theorem file_info_fields_are_clean :
  forall (file_path : pystr) (format : Format) (tag : TagFile float),
    reader_for file_path = Some format ->
    load format file_path = Some tag ->
    let '(title, genre, artist, album, _) := info file_path in
    clean isspace title /\ clean isspace genre /\
    clean isspace artist /\ clean isspace album.
Proof.
  intros file_path format tag H Hl.
  rewrite (file_info_loaded file_path format tag H Hl).
  split; [|split; [|split]]; apply __to_string_clean.
Qed.

(** X21.  Where the title comes from when the file is read: the tag
    [title] when it is there and not empty, else the tag [TITLE] when it
    is there and not empty, else the file name; in each case passed
    through [__to_string].  A title tag made of whitespace only counts as
    there, so that the title is then [None] and the file name is not
    used. *)
Theorem file_info_title :
  forall (file_path : pystr) (format : Format) (tag : TagFile float),
    reader_for file_path = Some format ->
    load format file_path = Some tag ->
    let title := fst (fst (fst (fst (info file_path)))) in
    (tag_truthy (tags tag "title") = true ->
     title = __to_string isspace (tags tag "title")) /\
    (tag_truthy (tags tag "title") = false ->
     tag_truthy (tags tag "TITLE") = true ->
     title = __to_string isspace (tags tag "TITLE")) /\
    (tag_truthy (tags tag "title") = false ->
     tag_truthy (tags tag "TITLE") = false ->
     title = __to_string isspace (TagStr (path_name file_path))) /\
    (forall s : pystr,
        tags tag "title" = TagStr s -> s <> [] ->
        forallb isspace s = true -> title = None).
Proof.
  intros file_path format tag H Hl title. unfold title.
  rewrite (file_info_loaded file_path format tag H Hl). cbn [fst].
  unfold get, py_or. change (upper "title") with "TITLE".
  repeat split.
  - intros T. rewrite T. cbv iota. now rewrite T.
  - intros T U. rewrite T. cbv iota. rewrite U. reflexivity.
  - intros T U. rewrite T. cbv iota. rewrite U. reflexivity.
  - intros s Hs Hne Hsp. rewrite Hs.
    destruct s as [|c s]; [contradiction|]. cbn [tag_truthy]. cbv iota.
    cbn [tag_truthy]. cbv iota.
    unfold __to_string. apply (strip_nil_iff isspace) in Hsp. now rewrite Hsp.
Qed.

Lemma format_02d_seconds (s : Z) :
  (0 <= s < 60)%Z ->
  format_02d s = [(48 + Z.to_N (s / 10))%N; (48 + Z.to_N (s mod 10))%N].
Proof.
  intros Hs. rewrite <- (Z2Nat.id s) by lia.
  assert (Hk : (Z.to_nat s < 60)%nat) by lia.
  generalize dependent (Z.to_nat s). clear.
  intros k Hk.
  do 60 (destruct k as [|k]; [reflexivity|]). lia.
Qed.

(** X22.  A length that is an [int] of [n] seconds is written as the
    minutes [n // 60], a colon, and the seconds [n % 60] on exactly two
    digits, from 00 to 59, for negative [n] too. *)
Theorem file_info_int_length :
  forall (file_path : pystr) (format : Format) (tag : TagFile float) (n : Z),
    reader_for file_path = Some format ->
    load format file_path = Some tag ->
    info_length tag = LenInt n ->
    snd (info file_path) =
      Some (lit (str (n / 60)) ++
            [58; 48 + Z.to_N (n mod 60 / 10); 48 + Z.to_N (n mod 60 mod 10)]%N) /\
    (0 <= n mod 60 / 10 <= 5)%Z /\ (0 <= n mod 60 mod 10 <= 9)%Z /\
    n = (60 * (n / 60) + 10 * (n mod 60 / 10) + n mod 60 mod 10)%Z.
Proof.
  intros file_path format tag n H Hl Hn.
  rewrite (file_info_loaded file_path format tag H Hl). cbn [snd].
  rewrite Hn.
  pose proof (Z.mod_pos_bound n 60 ltac:(lia)) as Hm.
  rewrite (format_02d_seconds _ Hm).
  split; [reflexivity|].
  pose proof (Z.div_mod n 60 ltac:(lia)).
  pose proof (Z.div_mod (n mod 60) 10 ltac:(lia)).
  pose proof (Z.mod_pos_bound (n mod 60) 10 ltac:(lia)).
  assert (0 <= n mod 60 / 10)%Z by (apply Z.div_pos; lia).
  assert (n mod 60 / 10 < 6)%Z by (apply Z.div_lt_upper_bound; lia).
  lia.
Qed.

End FileInfo.

Lemma file_info_falls_back_to_name_witness :
  sample_info (lit "music/cover.png") =
    (Some (lit "cover.png"), None, None, None, None) /\
  sample_info (lit "music/noise.mp3") =
    (Some (lit "noise.mp3"), None, None, None, None).
Proof.
  split.
  - apply (file_info_falls_back_to_name ascii_isspace unit
             (fun _ => lit "0:00") sample_name sample_load
             (lit "music/cover.png")).
    left. reflexivity.
  - apply (file_info_falls_back_to_name ascii_isspace unit
             (fun _ => lit "0:00") sample_name sample_load
             (lit "music/noise.mp3")).
    right. exists EasyMP3. split; reflexivity.
Defined.

Lemma file_info_fields_are_clean_witness :
  let '(title, genre, artist, album, _) := sample_info (lit "music/yoru.flac") in
  clean ascii_isspace title /\ clean ascii_isspace genre /\
  clean ascii_isspace artist /\ clean ascii_isspace album.
Proof.
  exact (file_info_fields_are_clean ascii_isspace unit (fun _ => lit "0:00")
           sample_name sample_load (lit "music/yoru.flac") FLAC
           (mkTagFile sample_tags (LenInt 185)) eq_refl eq_refl).
Defined.

Lemma file_info_title_witness :
  fst (fst (fst (fst (sample_info (lit "music/yoru.flac"))))) =
    Some (lit "Yoru no Uta").
Proof.
  exact (proj1 (file_info_title ascii_isspace unit (fun _ => lit "0:00")
                  sample_name sample_load (lit "music/yoru.flac") FLAC
                  (mkTagFile sample_tags (LenInt 185)) eq_refl eq_refl)
               eq_refl).
Defined.

Lemma file_info_int_length_witness :
  snd (sample_info (lit "music/yoru.flac")) = Some (lit "3:05").
Proof.
  exact (proj1 (file_info_int_length ascii_isspace unit (fun _ => lit "0:00")
                  sample_name sample_load (lit "music/yoru.flac") FLAC
                  (mkTagFile sample_tags (LenInt 185)) 185
                  eq_refl eq_refl eq_refl)).
Defined.
